(** * A shallow embedding of the Mongo-backed Bluesky catalog

    Sources embedded here:
    - [bluesky_catalog/mongo_normalized.py]: [Catalog], [BlueskyEventStream],
      [_build_dataset], the query translators and the two access policies;
    - [tiled/client/base.py]: [BaseClient.__init__].

    The document store (pymongo) is an external collaborator.  It is modelled
    by the contract the code relies on: [find] filters, [sort] orders by
    [_id], [skip] drops, [limit] truncates, [count_documents] counts. *)

From Stdlib Require Import ZArith Lia Ascii String.
From stdpp Require Import base option list sorting strings gmap.

Open Scope string_scope.
Open Scope list_scope.
Open Scope Z_scope.

(** ** Exceptions and results *)

Inductive exn :=
| ValueError
| KeyError
| RuntimeError
| NotImplementedError
| NameError.

Inductive result (A : Type) :=
| Ok (a : A)
| Err (e : exn).
Arguments Ok {A} a.
Arguments Err {A} e.

Definition rbind {A B} (r : result A) (k : A → result B) : result B :=
  match r with
  | Ok a => k a
  | Err e => Err e
  end.

Fixpoint rmapM {A B} (f : A → result B) (l : list A) : result (list B) :=
  match l with
  | [] => Ok []
  | x :: l' => rbind (f x) (λ y, rbind (rmapM f l') (λ ys, Ok (y :: ys)))
  end.

(** ** Documents

    Every stored document carries the store-assigned [_id]; the remaining
    fields are the payload.  [item.pop("_id")] leaves [fields]. *)

Inductive value :=
| VNone
| VInt (z : Z)
| VStr (s : string).

#[global] Instance value_eq_dec : EqDecision value.
Proof. solve_decision. Defined.

Record document := Document {
  _id : Z;
  fields : gmap string value;
}.

#[global] Instance document_eq_dec : EqDecision document.
Proof. solve_decision. Defined.

(** [doc[k]] as the store sees it when it evaluates a filter. *)
Definition doc_get (k : string) (d : document) : option value :=
  if decide (k = "_id") then Some (VInt (_id d)) else fields d !! k.

(** ** Store-native queries

    A query is a Python dict, kept as an association list in insertion order:
    [{"uid": key}], [{"uid": {"$in": allowed}}], [{"$and": combined}],
    [{"$text": {"$search": text}}]. *)

Inductive operand :=
| Scalar (v : value)
| Array (vs : list value).

#[warnings="-register-all"]
Inductive clause :=
| Literal (v : value)
| Operators (ops : list (string * operand))
| Subqueries (qs : list (list (string * clause))).

Definition query := list (string * clause).

Fixpoint dict_get {V} (k : string) (d : list (string * V)) : option V :=
  match d with
  | [] => None
  | (k', v) :: d' => if decide (k' = k) then Some v else dict_get k d'
  end.

(** [d[k] = v]: overwrite in place, or append a new key. *)
Fixpoint dict_set {V} (k : string) (v : V) (d : list (string * V)) : list (string * V) :=
  match d with
  | [] => [(k, v)]
  | (k', v') :: d' =>
      if decide (k' = k) then (k, v) :: d' else (k', v') :: dict_set k v d'
  end.

Definition is_operator (k : string) : bool :=
  match k with
  | String "$"%char _ => true
  | _ => false
  end.

(** ** Cursor contract *)

Definition id_le (a b : document) : Prop := _id a ≤ _id b.

#[global] Instance id_le_dec : RelDecision id_le.
Proof. intros a b. unfold id_le. apply _. Defined.

(** [.sort([("_id", 1)])] *)
Definition sort_by_id (l : list document) : list document :=
  merge_sort id_le l.

(** [.skip(n)] *)
Definition cursor_skip (n : nat) (l : list document) : list document :=
  drop n l.

(** [.limit(n)]: pymongo documents a limit of 0 as no limit; a negative
    limit returns a single batch of [|n|] documents. *)
Definition cursor_limit (n : Z) (l : list document) : list document :=
  if decide (n = 0) then l else take (Z.abs_nat n) l.

(** The operators this development does not interpret ([$text] and any
    other the store may know) keep the meaning the store gives them. *)
Class StoreOperators := {
  store_operator : string → clause → document → bool;
  field_operator : string → operand → option value → bool;
}.

Section Store.
Context `{!StoreOperators}.

Definition operator_holds (x : option value) (op : string * operand) : bool :=
  match op with
  | ("$gt", Scalar (VInt b)) =>
      match x with Some (VInt a) => bool_decide (b < a) | _ => false end
  | ("$in", Array vs) =>
      match x with Some a => bool_decide (a ∈ vs) | None => false end
  | (name, arg) => field_operator name arg x
  end.

(** One entry [k: c] of a query dict, evaluated on document [d]. *)
Fixpoint entry_matches (d : document) (k : string) (c : clause) {struct c} : bool :=
  match c with
  | Subqueries qs =>
      if decide (k = "$and")
      then forallb (forallb (λ kc, entry_matches d kc.1 kc.2)) qs
      else store_operator k c d
  | Literal v =>
      if is_operator k then store_operator k c d
      else bool_decide (doc_get k d = Some v)
  | Operators ops =>
      if is_operator k then store_operator k c d
      else forallb (operator_holds (doc_get k d)) ops
  end.

(** The keys of a dict are an implicit conjunction. *)
Definition matches (q : query) (d : document) : bool :=
  forallb (λ kc, entry_matches d kc.1 kc.2) q.

(** [collection.find(q)] *)
Definition find (coll : list document) (q : query) : list document :=
  filter (λ d, matches q d) coll.

Definition count_documents (coll : list document) (q : query) : Z :=
  Z.of_nat (length (find coll q)).

Definition find_one (coll : list document) (q : query) : option document :=
  head (find coll q).

(** ** [Catalog._chunked_find] *)

Definition CURSOR_LIMIT : Z := 100.

(** The body of [while True]; [items] is the exhausted cursor of this
    round.  The result is the sequence of yielded items; [fuel] bounds the
    number of rounds, and [None] means it ran out. *)
Fixpoint chunked_loop (fuel : nat) (coll : list document) (limit : option Z)
    (query : query) (tally : Z) (items : list document)
    : option (list (gmap string value)) :=
  match fuel with
  | O => None
  | S fuel' =>
      match last items with
      | None => Some []
      | Some last_item =>
          let last_object_id := _id last_item in
          let query :=
            dict_set "_id" (Operators [("$gt", Scalar (VInt last_object_id))]) query in
          let yielded := fields <$> items in
          let tally := tally + Z.of_nat (length items) in
          let again (this_limit : Z) :=
            (yielded ++.) <$>
              chunked_loop fuel' coll limit query tally
                (cursor_limit this_limit (sort_by_id (find coll query))) in
          match limit with
          | Some lim =>
              if decide (tally = lim) then Some yielded
              else again (if decide (lim - tally < CURSOR_LIMIT)
                          then lim - tally else CURSOR_LIMIT)
          | None => again CURSOR_LIMIT
          end
      end
  end.

Definition _chunked_find (fuel : nat) (coll : list document) (query : query)
    (skip : nat) (limit : option Z) : option (list (gmap string value)) :=
  let initial_limit :=
    match limit with
    | Some lim => if decide (lim < CURSOR_LIMIT) then lim else CURSOR_LIMIT
    | None => CURSOR_LIMIT
    end in
  chunked_loop fuel coll limit query 0
    (cursor_limit initial_limit (cursor_skip skip (sort_by_id (find coll query)))).

End Store.


(** ** Query intents and their translators *)

Inductive intent :=
| FullText (text : string)
| KeyLookup (uid : string)
| RawMongo (start : query).

Definition raw_mongo (start : query) : query := start.

(** [full_text_search] and [key_lookup] re-enter the registry with a
    [RawMongo], which the registry sends to [raw_mongo]. *)
Definition full_text_search (text : string) : query :=
  raw_mongo [("$text", Operators [("$search", Scalar (VStr text))])].

Definition key_lookup (uid : string) : query :=
  raw_mongo [("$uid", Literal (VStr uid))].

(** Modelled from the spec: [QueryTranslationRegistry] lives in
    [catalog_server.query_registration], outside the sources at hand.
    [translate(intent)] looks the translator up by the intent's variant; the
    three registrations are those at the bottom of [mongo_normalized.py]. *)
Definition query_registry (q : intent) : query :=
  match q with
  | FullText text => full_text_search text
  | KeyLookup uid => key_lookup uid
  | RawMongo start => raw_mongo start
  end.

(** ** Identities and access policies *)

Inductive identity :=
| Admin                     (* SpecialUsers.admin *)
| User (name : string).

#[global] Instance identity_eq_dec : EqDecision identity.
Proof. solve_decision. Defined.

#[global] Instance identity_countable : Countable identity.
Proof.
  refine (inj_countable'
    (λ i, match i with Admin => None | User n => Some n end)
    (λ o, match o with None => Admin | Some n => User n end) _).
  by intros [].
Defined.

Inductive access_list :=
| ALL                       (* SimpleAccessPolicy.ALL *)
| Entries (uids : list string).

Inductive access_policy :=
| DummyAccessPolicy
| SimpleAccessPolicy (access_lists : gmap identity access_list).

Definition is_admin (authenticated_identity : option identity) : bool :=
  match authenticated_identity with
  | Some Admin => true
  | _ => false
  end.

(** [self.access_lists.get(authenticated_identity, [])] *)
Definition access_lists_get (access_lists : gmap identity access_list)
    (authenticated_identity : option identity) : access_list :=
  default (Entries []) (authenticated_identity ≫= (access_lists !!.)).

Definition uid_in (allowed : list string) : intent :=
  RawMongo [("uid", Operators [("$in", Array (VStr <$> allowed))])].

Definition modify_queries (policy : access_policy) (queries : list intent)
    (authenticated_identity : option identity) : list intent :=
  match policy with
  | DummyAccessPolicy => queries
  | SimpleAccessPolicy access_lists =>
      let allowed := access_lists_get access_lists authenticated_identity in
      match is_admin authenticated_identity, allowed with
      | true, _ => queries
      | false, ALL => queries
      | false, Entries uids => queries ++ [uid_in uids]
      end
  end.

(** ** Collections of the two databases *)

Record field_spec := FieldSpec {
  field_dtype : string;
  field_shape : list nat;
}.

(** An Event Descriptor document. *)
Record descriptor_doc := DescriptorDoc {
  descriptor_uid : string;
  descriptor_run_start : string;
  descriptor_name : string;
  descriptor_data_keys : list (string * field_spec);
}.

(** An Event document: the descriptor it references and its [seq_num]. *)
Record event_doc := EventDoc {
  event_descriptor : string;
  event_seq_num : Z;
}.

(** What [db.get_collection(name)] hands out, by name. *)
Record database := Database {
  run_start_collection : list document;
  run_stop_collection : list document;
  event_descriptor_collection : list descriptor_doc;
  event_collection : list event_doc;
  resource_collection : list document;
  datum_collection : list document;
}.

(** ** [_build_dataset] *)

(** One dask task: [(self._get_block, block, dtype, shape of the block)]. *)
Record task := Task {
  task_block : list nat;
  task_dtype : string;
  task_shape : list nat;
}.

(** What [dask.array.Array(dask=..., name=..., chunks=..., dtype=...,
    shape=...)] would hold; the keys [(name,) + block] of the task dict are
    kept as pairs of the name and the block. *)
Record dask_array := DaskArray {
  dask : gmap (string * list nat) task;
  array_name : string;
  array_chunks : list (list nat);
  array_dtype : string;
  array_shape : list nat;
}.

(** [descriptor, *_ = event_descriptors] needs one descriptor.  The loop
    over its [data_keys] starts by reading [self] (line 92), a name that
    the function does not take and the module binds nowhere, no more than
    [structure], [dtype], [shape] or [itertools]: with at least one data key
    the first round raises [NameError], before any task is built.  With no
    data key the loop does not run and the function returns [None]. *)
Definition _build_dataset (event_descriptors : list descriptor_doc)
    : result (option dask_array) :=
  match event_descriptors with
  | [] => Err ValueError
  | descriptor :: _ =>
      match descriptor_data_keys descriptor with
      | [] => Ok None
      | _ :: _ => Err NameError
      end
  end.

(** ** [BlueskyEventStream] *)

Record BlueskyEventStream := EventStream {
  stream_mapping : list string;                (* the keys of the LazyMap *)
  stream_descriptors : list descriptor_doc;    (* metadata["descriptors"] *)
  stream_name : string;                        (* metadata["stream_name"] *)
}.

(** [cutoff_seq_num] is accepted and not kept. *)
Definition construct (run_start_uid : value) (cutoff_seq_num : Z)
    (stream_name : string) (event_descriptors : list descriptor_doc)
    : result BlueskyEventStream :=
  match event_descriptors with
  | [] => Err ValueError
  | _ :: _ => Ok (EventStream ["data"] event_descriptors stream_name)
  end.

(** The value of the ["data"] entry, once forced: the thunk calls
    [_build_dataset] on the descriptors the stream was constructed with. *)
Definition stream_data (s : BlueskyEventStream) : result (option dask_array) :=
  _build_dataset (stream_descriptors s).

(** ** [Catalog] *)

Record Catalog := MkCatalog {
  _metadatastore_db : database;
  _asset_registry_db : database;
  _metadata : gmap string value;
  _high_level_queries : list intent;
  _access_policy : option access_policy;
  _authenticated_identity : option identity;
}.

(** Set once in [__init__] from [_high_level_queries], never reassigned. *)
Definition _mongo_queries (self : Catalog) : list query :=
  query_registry <$> _high_level_queries self.

Definition _run_start_collection (self : Catalog) : list document :=
  run_start_collection (_metadatastore_db self).
Definition _run_stop_collection (self : Catalog) : list document :=
  run_stop_collection (_metadatastore_db self).
Definition _event_descriptor_collection (self : Catalog) : list descriptor_doc :=
  event_descriptor_collection (_metadatastore_db self).
Definition _event_collection (self : Catalog) : list event_doc :=
  event_collection (_metadatastore_db self).

(** Both policies answer [isinstance(catalog, Catalog)]. *)
Definition check_compatibility (policy : access_policy) (catalog : Catalog) : bool :=
  true.

Definition Catalog_init (metadatastore_db asset_registry_db : database)
    (metadata : option (gmap string value)) (queries : option (list intent))
    (access_policy : option access_policy)
    (authenticated_identity : option identity) : result Catalog :=
  let self :=
    MkCatalog metadatastore_db asset_registry_db
      (default ∅ metadata) (default [] queries)
      access_policy authenticated_identity in
  match access_policy with
  | Some policy =>
      if check_compatibility policy self then Ok self else Err ValueError
  | None => Ok self
  end.

(** The properties; [metadata] wraps [_metadata] in a read-only view. *)
Definition metadatastore_db := _metadatastore_db.
Definition asset_registry_db := _asset_registry_db.
Definition access_policy_of := _access_policy.
Definition authenticated_identity_of := _authenticated_identity.
Definition metadata := _metadata.

Definition _mongo_query (self : Catalog) (queries : list query) : query :=
  let combined := _mongo_queries self ++ queries in
  match combined with
  | [] => []
  | _ :: _ => [("$and", Subqueries combined)]
  end.

Definition authenticated_as (self : Catalog) (identity : identity) : result Catalog :=
  match _authenticated_identity self with
  | Some _ => Err RuntimeError
  | None =>
      match _access_policy self with
      | Some _ => Err NotImplementedError
      | None =>
          Catalog_init (metadatastore_db self) (asset_registry_db self)
            (Some (metadata self)) (Some (_high_level_queries self))
            (access_policy_of self) (authenticated_identity_of self)
      end
  end.

(** [DummyAccessPolicy.filter_results] and [SimpleAccessPolicy.filter_results]
    have the same body; [queries] is not passed on. *)
Definition filter_results (policy : access_policy) (catalog : Catalog)
    (authenticated_identity : option identity) : result Catalog :=
  Catalog_init (metadatastore_db catalog) (asset_registry_db catalog)
    (Some (metadata catalog)) None
    (access_policy_of catalog) authenticated_identity.

(** Modelled from the spec: the decorator [authenticated] comes from
    [catalog_server.utils], outside the sources at hand.  A gated call asks
    the access policy to extend the stored intents for the current identity
    and runs on the resulting list, for that call only. *)
Definition effective_queries (self : Catalog) : list intent :=
  match _access_policy self with
  | Some policy =>
      modify_queries policy (_high_level_queries self) (_authenticated_identity self)
  | None => _high_level_queries self
  end.

(** Modelled from the spec: the decorator itself; the decorated method runs
    on a view of [self] whose intents are the effective ones. *)
Definition authenticated {A} (method : Catalog → A) (self : Catalog) : A :=
  method
    (MkCatalog (_metadatastore_db self) (_asset_registry_db self) (_metadata self)
       (effective_queries self) (_access_policy self) (_authenticated_identity self)).

(** [search] carries the decorator like the readers do: its body runs on
    the gated view. *)
Definition search : Catalog → intent → result Catalog :=
  authenticated (λ self query,
    Catalog_init (_metadatastore_db self) (_asset_registry_db self)
      (Some (metadata self)) (Some (_high_level_queries self ++ [query]))
      (access_policy_of self) (authenticated_identity_of self)).

(** [functools.partial(self._build_event_stream, ...)] *)
Record partial := Partial {
  partial_run_start_uid : value;
  partial_stream_name : string;
  partial_is_complete : bool;
}.

Record BlueskyRun := Run {
  run_mapping : list (string * partial);
  run_start : gmap string value;               (* metadata["start"] *)
  run_stop : option (gmap string value);       (* metadata["stop"] *)
}.

(** The pipeline [$match descriptor $in uids], then [$group] with the
    constant key ["descriptor"] and [$max] of [$seq_num]: every matched event
    falls into the one group; without a matched event there is no group. *)
Definition aggregate_highest_seq_num (events : list event_doc)
    (event_descriptor_uids : list string) : list Z :=
  match filter (λ e, event_descriptor e ∈ event_descriptor_uids) events with
  | [] => []
  | e :: es => [foldl Z.max (event_seq_num e) (event_seq_num <$> es)]
  end.

(** [collection.find({"run_start": uid, "name": stream_name})] on descriptors. *)
Definition find_descriptors (coll : list descriptor_doc) (run_start_uid : value)
    (stream_name : string) : list descriptor_doc :=
  filter (λ d, VStr (descriptor_run_start d) = run_start_uid
               ∧ descriptor_name d = stream_name) coll.

(** Lines 235-259 of [_build_event_stream]: the descriptors found and the
    value bound to [cutoff_seq_num]. *)
Definition event_stream_cutoff (self : Catalog) (run_start_uid : value)
    (stream_name : string) : result (list descriptor_doc * Z) :=
  let event_descriptors :=
    find_descriptors (_event_descriptor_collection self) run_start_uid stream_name in
  let event_descriptor_uids := descriptor_uid <$> event_descriptors in
  match aggregate_highest_seq_num (_event_collection self) event_descriptor_uids with
  | [highest_seq_num] => Ok (event_descriptors, highest_seq_num)
  | _ => Err ValueError            (* (result,) = ... unpacks exactly one *)
  end.

Definition _build_event_stream (self : Catalog) (run_start_uid : value)
    (stream_name : string) (is_complete : bool) : result BlueskyEventStream :=
  rbind (event_stream_cutoff self run_start_uid stream_name)
    (λ '(event_descriptors, cutoff_seq_num),
       construct run_start_uid cutoff_seq_num stream_name event_descriptors).

Section CatalogReads.
Context `{!StoreOperators}.

Definition _get_stop_doc (self : Catalog) (run_start_uid : value)
    : option (gmap string value) :=
  fields <$> find_one (_run_stop_collection self)
               [("run_start", Literal run_start_uid)].

Definition _build_run (self : Catalog) (run_start_doc : gmap string value)
    : result BlueskyRun :=
  match run_start_doc !! "uid" with
  | None => Err KeyError
  | Some uid =>
      let run_stop_doc := _get_stop_doc self uid in
      let stream_names :=
        remove_dups
          (descriptor_name <$>
             filter (λ d, VStr (descriptor_run_start d) = uid)
               (_event_descriptor_collection self)) in
      let mapping :=
        (λ stream_name,
           (stream_name,
            Partial uid stream_name (bool_decide (is_Some run_stop_doc))))
        <$> stream_names in
      Ok (Run mapping run_start_doc run_stop_doc)
  end.

Definition __getitem__ : Catalog → string → result BlueskyRun :=
  authenticated (λ self key,
    let query := _mongo_query self [[("uid", Literal (VStr key))]] in
    match find_one (_run_start_collection self) query with
    | None => Err KeyError
    | Some run_start_doc => _build_run self (fields run_start_doc)
    end).

Definition __iter__ (fuel : nat) : Catalog → option (result (list value)) :=
  authenticated (λ self,
    rmapM (λ run_start_doc : gmap string value,
             match run_start_doc !! "uid" with
             | Some uid => Ok uid
             | None => Err KeyError
             end)
    <$> _chunked_find fuel (_run_start_collection self) (_mongo_query self []) 0 None).

Definition __len__ : Catalog → Z :=
  authenticated (λ self,
    count_documents (_run_start_collection self) (_mongo_query self [])).

End CatalogReads.

(** ** [tiled.client.base.BaseClient] *)

Module base.

(** What a caller may pass as [path]. *)
Inductive path_arg :=
| PathStr (s : string)
| PathSeq (segments : list string)
| PathNone.

Inductive item_arg :=
| NEEDS_INITIALIZATION
| Item (payload : gmap string value).

Record BaseClient := MkBaseClient {
  _client : string;
  _path : list string;
  _item : option (gmap string value);
  _metadata : gmap string value;
  _cached_len : option Z;
  _params : gmap string value;
}.

Definition BaseClient_init (client : string) (item : item_arg) (path : path_arg)
    (metadata : gmap string value) (params : option (gmap string value))
    : result BaseClient :=
  match path with
  | PathStr _ => Err ValueError
  | _ =>
      let _path := match path with PathSeq segments => segments | _ => [] end in
      let '(_item, _metadata) :=
        match item with
        | NEEDS_INITIALIZATION => (None, ∅)
        | Item payload => (Some payload, metadata)
        end in
      Ok (MkBaseClient client _path _item _metadata None (default ∅ params))
  end.

End base.


(** ** Further methods of [mongo_normalized.py] *)

(** [BlueskyRun.documents]: the start document, then the stop document when
    there is one. *)
Definition documents (run : BlueskyRun) : list (string * gmap string value) :=
  ("start", run_start run)
  :: match run_stop run with
     | Some stop_doc => [("stop", stop_doc)]
     | None => []
     end.

(** [BlueskyEventStream.descriptors] *)
Definition descriptors (s : BlueskyEventStream) : list descriptor_doc :=
  stream_descriptors s.

(** What the positional methods can raise beyond [exn]: [IndexError] of
    [_item_by_index], and [StopIteration] of [next] on a generator that
    yields nothing. *)
Inductive index_result (A : Type) :=
| Returned (a : A)
| Raised (e : exn)
| IndexError
| StopIteration.
Arguments Returned {A} a.
Arguments Raised {A} e.
Arguments IndexError {A}.
Arguments StopIteration {A}.

Section CatalogSlices.
Context `{!StoreOperators}.

(** [start] and [stop] are the bounds a slice has once resolved: absent or
    not negative. *)
Definition _keys_slice (fuel : nat) (self : Catalog) (start stop : option nat)
    : option (result (list value)) :=
  let skip := default 0%nat start in
  let limit := (λ stop : nat, Z.of_nat stop - Z.of_nat skip) <$> stop in
  rmapM (λ run_start_doc : gmap string value,
           match run_start_doc !! "uid" with
           | Some uid => Ok uid
           | None => Err KeyError
           end)
  <$> _chunked_find fuel (_run_start_collection self) (_mongo_query self [])
        skip limit.

Definition _items_slice (fuel : nat) (self : Catalog) (start stop : option nat)
    : option (result (list (value * BlueskyRun))) :=
  let skip := default 0%nat start in
  let limit := (λ stop : nat, Z.of_nat stop - Z.of_nat skip) <$> stop in
  rmapM (λ run_start_doc : gmap string value,
           match run_start_doc !! "uid" with
           | Some uid =>
               rbind (_build_run self run_start_doc) (λ run, Ok (uid, run))
           | None => Err KeyError
           end)
  <$> _chunked_find fuel (_run_start_collection self) (_mongo_query self [])
        skip limit.

(** [len(self)] is the gated [__len__].  [next] takes the first item the
    generator yields; with [limit=1] the generator stops after one round.
    A negative [index] passes the bound check and reaches [.skip], which
    refuses it with [ValueError]. *)
Definition _item_by_index (fuel : nat) (self : Catalog) (index : Z)
    : option (index_result (value * BlueskyRun)) :=
  if decide (__len__ self ≤ index) then Some IndexError
  else if decide (index < 0) then Some (Raised ValueError)
  else
    (λ yielded : list (gmap string value),
       match yielded with
       | [] => StopIteration
       | run_start_doc :: _ =>
           match run_start_doc !! "uid" with
           | None => Raised KeyError
           | Some key =>
               match _build_run self run_start_doc with
               | Ok value => Returned (key, value)
               | Err e => Raised e
               end
           end
       end)
    <$> _chunked_find fuel (_run_start_collection self) (_mongo_query self [])
          (Z.to_nat index) (Some 1).

End CatalogSlices.


(** ** Vocabulary of the statements *)

(** The collection is stored in strictly ascending [_id] order. *)
Definition ascending_ids (coll : list document) : Prop :=
  StronglySorted (λ a b, _id a < _id b) coll.


(** What the loop writes under ["_id"]. *)
Definition id_gt (last_object_id : Z) : clause :=
  Operators [("$gt", Scalar (VInt last_object_id))].

(** The limit of the next round, as both places of the code compute it. *)
Definition round_limit (limit : option Z) (tally : Z) : Z :=
  match limit with
  | Some lim => if decide (lim - tally < CURSOR_LIMIT) then lim - tally else CURSOR_LIMIT
  | None => CURSOR_LIMIT
  end.

(** The documents still owed once [tally] of them were yielded. *)
Definition owed (limit : option Z) (tally : Z) (rest : list document) : list document :=
  match limit with
  | Some lim => take (Z.to_nat (lim - tally)) rest
  | None => rest
  end.

(** ** Concrete inputs used by the examples *)

(** A store that knows no operator beyond those interpreted above. *)
Definition uninterpreted : StoreOperators :=
  {| store_operator := λ _ _ _, false; field_operator := λ _ _ _, false |}.

Definition run_doc (i : Z) (uid : string) : document :=
  Document i {[ "uid" := VStr uid ]}.

Definition runs_ABC : list document :=
  [run_doc 1 "A"; run_doc 2 "B"; run_doc 3 "C"].

Definition db_ABC : database :=
  Database runs_ABC [] [] [] [] [].

Definition alice_lists : gmap identity access_list :=
  {[ User "alice" := Entries ["A"; "B"] ]}.


(** Run A, stream "primary": two descriptors, whose events reach 17 and 42. *)
Definition primary_descriptors : list descriptor_doc :=
  [DescriptorDoc "d1" "A" "primary" [("x", FieldSpec "<f8" [])];
   DescriptorDoc "d2" "A" "primary" [("x", FieldSpec "<f8" [])]].

Definition db_primary : database :=
  Database runs_ABC []
    (primary_descriptors ++ [DescriptorDoc "d3" "B" "primary" []])
    [EventDoc "d1" 16; EventDoc "d1" 17; EventDoc "d2" 42; EventDoc "d2" 41;
     EventDoc "d3" 99]
    [] [].

(** The same descriptors before any event was recorded. *)
Definition db_no_event : database :=
  Database runs_ABC [] primary_descriptors [] [] [].

(** 250 run documents with ids 1..250: more than two full rounds. *)
Definition runs_250 : list document :=
  (λ i, run_doc i "run") <$> seqZ 1 250.


(** * Properties *)

(** ** Lists *)

Lemma filter_all_rejected {A} (P : A → Prop) `{!∀ x, Decision (P x)} (l : list A) :
  (∀ x, x ∈ l → ¬ P x) → filter P l = [].
Proof.
  induction l as [|x l IH]; intros Hrej; [done|].
  rewrite filter_cons_False by (apply Hrej; left).
  apply IH. intros y Hy. apply Hrej. by right.
Qed.

Lemma filter_all_accepted {A} (P : A → Prop) `{!∀ x, Decision (P x)} (l : list A) :
  (∀ x, x ∈ l → P x) → filter P l = l.
Proof.
  induction l as [|x l IH]; intros Hacc; [done|].
  rewrite filter_cons_True by (apply Hacc; left).
  f_equal. apply IH. intros y Hy. apply Hacc. by right.
Qed.

(** ** Catalog transformations *)

Lemma Catalog_init_ok db1 db2 md qs pol aid :
  Catalog_init db1 db2 md qs pol aid
  = Ok (MkCatalog db1 db2 (default ∅ md) (default [] qs) pol aid).
Proof. unfold Catalog_init. by destruct pol. Qed.




(** C2 (what the code does): on a Catalog with no identity and no access
    policy, [authenticated_as(identity)] returns a Catalog equal to the
    original one: the identity it is given is dropped, the new Catalog has
    none.  With an identity already set it raises; with an access policy set
    it raises [NotImplementedError]. *)
Theorem authenticated_as_drops_identity :
  (∀ db1 db2 md qs (identity : identity),
     authenticated_as (MkCatalog db1 db2 md qs None None) identity
     = Ok (MkCatalog db1 db2 md qs None None))
  ∧ (∀ db1 db2 md qs pol current (identity : identity),
       authenticated_as (MkCatalog db1 db2 md qs pol (Some current)) identity
       = Err RuntimeError)
  ∧ (∀ db1 db2 md qs pol (identity : identity),
       authenticated_as (MkCatalog db1 db2 md qs (Some pol) None) identity
       = Err NotImplementedError).
Proof.
  repeat split; intros; unfold authenticated_as; simpl;
    rewrite ?Catalog_init_ok; done.
Qed.

(** ** Event streams *)

(** C7: when no descriptor is found for [(uid, stream_name)], building the
    event stream raises and yields no stream; so does [construct] itself on
    the empty descriptor list, whatever the cutoff it is given. *)
Theorem empty_stream_fails (self : Catalog) (uid : value) (name : string)
    (is_complete : bool) :
  find_descriptors (_event_descriptor_collection self) uid name = [] →
  _build_event_stream self uid name is_complete = Err ValueError
  ∧ ∀ cutoff,
      construct uid cutoff name
        (find_descriptors (_event_descriptor_collection self) uid name)
      = Err ValueError.
Proof.
  intros Hnone. split.
  - unfold _build_event_stream, event_stream_cutoff. rewrite Hnone. simpl.
    unfold aggregate_highest_seq_num.
    rewrite filter_all_rejected; [done|].
    intros e _ Hin. by apply elem_of_nil in Hin.
  - intros cutoff. by rewrite Hnone.
Qed.

(** ** BaseClient *)

(** C10: a string as [path] is refused with [ValueError] and no client is
    built; a sequence of segments is accepted and stored as given, and no
    path is stored as the empty tuple. *)
Theorem BaseClient_init_path (client : string) (item : base.item_arg)
    (metadata : gmap string value) (params : option (gmap string value)) :
  (∀ s, base.BaseClient_init client item (base.PathStr s) metadata params
        = Err ValueError)
  ∧ (∀ segments, ∃ c,
       base.BaseClient_init client item (base.PathSeq segments) metadata params = Ok c
       ∧ base._path c = segments)
  ∧ (∃ c, base.BaseClient_init client item base.PathNone metadata params = Ok c
          ∧ base._path c = []).
Proof.
  repeat split.
  - intros segments. unfold base.BaseClient_init. destruct item; eauto.
  - unfold base.BaseClient_init. destruct item; eauto.
Qed.

(** ** Combined predicates *)

Section Combine.
Context `{!StoreOperators}.

Lemma matches_and (qs : list query) (d : document) :
  matches [("$and", Subqueries qs)] d = forallb (λ q, matches q d) qs.
Proof.
  unfold matches at 1. simpl. by rewrite andb_true_r.
Qed.

Lemma matches_mongo_query (self : Catalog) (extra : list query) (d : document) :
  matches (_mongo_query self extra) d
  = forallb (λ q, matches q d) (_mongo_queries self ++ extra).
Proof.
  unfold _mongo_query. destruct (_mongo_queries self ++ extra) as [|q qs] eqn:E.
  - done.
  - apply matches_and.
Qed.




End Combine.

(** ** Access policies *)

Section AccessPolicy.
Context `{!StoreOperators}.

Lemma matches_uid_literal (key : string) (d : document) :
  matches [("uid", Literal (VStr key))] d = true
  ↔ fields d !! "uid" = Some (VStr key).
Proof.
  unfold matches. simpl. rewrite andb_true_r, bool_decide_eq_true. done.
Qed.

Lemma matches_uid_in (uids : list string) (d : document) :
  matches (query_registry (uid_in uids)) d = true
  ↔ ∃ u, u ∈ uids ∧ fields d !! "uid" = Some (VStr u).
Proof.
  unfold matches. simpl. rewrite !andb_true_r.
  change (doc_get "uid" d) with (fields d !! "uid").
  destruct (fields d !! "uid") as [v|] eqn:E.
  - rewrite bool_decide_eq_true, list_elem_of_fmap. split.
    + intros (u & -> & Hu). eauto.
    + intros (u & Hu & [= ->]). eauto.
  - split; [done|]. by intros (u & _ & ?).
Qed.

(** C8: for the allow-listed policy, [modify_queries] returns the intents
    unchanged for the administrative identity and for an identity whose
    entry is [ALL]; otherwise it returns them with one more intent at the
    end, which a document satisfies exactly when its uid is in the
    identity's list, the empty list standing in for an identity the mapping
    does not know.  A gated lookup of a key outside that list raises
    [KeyError], whatever the store holds. *)
Theorem allow_list_modify_queries (access_lists : gmap identity access_list)
    (queries : list intent) (aid : option identity) :
  let policy := SimpleAccessPolicy access_lists in
  (is_admin aid = true ∨ access_lists_get access_lists aid = ALL →
     modify_queries policy queries aid = queries)
  ∧ (∀ uids,
       is_admin aid = false → access_lists_get access_lists aid = Entries uids →
       modify_queries policy queries aid = queries ++ [uid_in uids]
       ∧ (∀ d, matches (query_registry (uid_in uids)) d = true
               ↔ ∃ u, u ∈ uids ∧ fields d !! "uid" = Some (VStr u))
       ∧ (∀ db1 db2 md key,
            key ∉ uids →
            __getitem__ (MkCatalog db1 db2 md queries (Some policy) aid) key
            = Err KeyError))
  ∧ (aid ≫= (access_lists !!.) = None →
       access_lists_get access_lists aid = Entries []).
Proof.
  intros policy. subst policy. split; [|split].
  - intros [Hadmin|Hall]; unfold modify_queries.
    + by rewrite Hadmin.
    + rewrite Hall. by destruct (is_admin aid).
  - intros uids Hadmin Hlist.
    assert (Hmod : modify_queries (SimpleAccessPolicy access_lists) queries aid
                   = queries ++ [uid_in uids]).
    { unfold modify_queries. by rewrite Hadmin, Hlist. }
    split; [done|]. split; [apply matches_uid_in|].
    intros db1 db2 md key Hkey.
    unfold __getitem__, authenticated, effective_queries.
    cbn [_access_policy _high_level_queries _authenticated_identity].
    rewrite Hmod.
    unfold find_one, find. rewrite filter_all_rejected; [done|].
    intros d _ Hd. apply Is_true_true in Hd.
    rewrite matches_mongo_query in Hd. unfold _mongo_queries in Hd.
    cbn [_high_level_queries] in Hd.
    rewrite fmap_app, <-app_assoc, !forallb_app in Hd.
    cbn [fmap list_fmap forallb] in Hd.
    apply andb_true_iff in Hd as [_ Hd].
    apply andb_true_iff in Hd as [Hin Hlit].
    apply andb_true_iff in Hin as [Hin _].
    apply andb_true_iff in Hlit as [Hlit _].
    apply matches_uid_in in Hin as (u & Hu & Hin).
    apply matches_uid_literal in Hlit. congruence.
  - intros Hnone. unfold access_lists_get. by rewrite Hnone.
Qed.

End AccessPolicy.

(** Alice may see A and B: her intents gain the restriction, and looking up
    C raises even though the store holds C. *)
Lemma allow_list_alice :
  modify_queries (SimpleAccessPolicy alice_lists) [] (Some (User "alice"))
  = [uid_in ["A"; "B"]]
  ∧ run_doc 3 "C" ∈ runs_ABC
  ∧ @__getitem__ uninterpreted
      (MkCatalog db_ABC db_ABC ∅ [] (Some (SimpleAccessPolicy alice_lists))
         (Some (User "alice"))) "C"
    = Err KeyError
  ∧ modify_queries (SimpleAccessPolicy alice_lists) [] (Some Admin) = [].
Proof.
  pose proof (@allow_list_modify_queries uninterpreted alice_lists []
                (Some (User "alice"))) as (_ & Halice & _).
  pose proof (@allow_list_modify_queries uninterpreted alice_lists []
                (Some Admin)) as (Hadmin & _ & _).
  destruct (Halice ["A"; "B"]) as (Hmod & _ & Hget);
    [reflexivity | reflexivity |].
  split; [exact Hmod|]. split; [repeat constructor|].
  split; [|apply Hadmin; left; reflexivity].
  apply Hget. apply (bool_decide_unpack _). vm_compute. exact I.
Defined.

(** ** The cutoff of an event stream *)

Lemma foldl_max_bounds (l : list Z) (a : Z) :
  a ≤ foldl Z.max a l
  ∧ (∀ x, x ∈ l → x ≤ foldl Z.max a l)
  ∧ (foldl Z.max a l = a ∨ foldl Z.max a l ∈ l).
Proof.
  revert a. induction l as [|y l IH]; intros a; simpl.
  - split; [lia|]. split; [|by left]. intros x Hx. by apply elem_of_nil in Hx.
  - destruct (IH (Z.max a y)) as (Hle & Hall & Hhit).
    split; [lia|]. split.
    + intros x [->|Hx]%elem_of_cons; [lia|by apply Hall].
    + destruct Hhit as [Hhit|Hhit].
      * destruct (Z.max_spec a y) as [[_ Hm]|[_ Hm]]; rewrite Hm in Hhit |- *.
        -- right. rewrite Hhit. by left.
        -- by left.
      * right. by right.
Qed.

(** When at least one Event document references a descriptor of the
    stream, the value bound to [cutoff_seq_num] at line 259 is the maximum
    [seq_num] over those Event documents, all descriptors taken together. *)
Lemma cutoff_is_highest_seq_num (self : Catalog) (uid : value) (name : string) :
  let descriptors :=
    find_descriptors (_event_descriptor_collection self) uid name in
  let events :=
    filter (λ e, event_descriptor e ∈ descriptor_uid <$> descriptors)
      (_event_collection self) in
  events ≠ [] →
  ∃ cutoff,
    event_stream_cutoff self uid name = Ok (descriptors, cutoff)
    ∧ (∀ e, e ∈ events → event_seq_num e ≤ cutoff)
    ∧ (∃ e, e ∈ events ∧ event_seq_num e = cutoff).
Proof.
  intros descriptors events Hsome.
  unfold event_stream_cutoff, aggregate_highest_seq_num.
  fold descriptors. fold events.
  destruct events as [|e es]; [done|].
  eexists. split; [reflexivity|].
  destruct (foldl_max_bounds (event_seq_num <$> es) (event_seq_num e))
    as (Hle & Hall & Hhit).
  split.
  - intros e' [->|He']%elem_of_cons; [done|].
    apply Hall, list_elem_of_fmap. eauto.
  - destruct Hhit as [Hhit|Hhit].
    + exists e. split; [by left|done].
    + apply list_elem_of_fmap in Hhit as (e' & Heq & He').
      exists e'. split; [by right|done].
Qed.

(** Two descriptors whose events reach 17 and 42: the cutoff is 42. *)
Lemma cutoff_17_42 :
  event_stream_cutoff (MkCatalog db_primary db_primary ∅ [] None None)
    (VStr "A") "primary"
  = Ok (primary_descriptors, 42).
Proof.
  destruct (cutoff_is_highest_seq_num
              (MkCatalog db_primary db_primary ∅ [] None None)
              (VStr "A") "primary") as (cutoff & Heq & _).
  - vm_compute. discriminate.
  - rewrite Heq. vm_compute in Heq. injection Heq as <-. reflexivity.
Defined.

(** C6 (what the code does): a stream that has descriptors and no Event
    document yet gets no cutoff: the aggregate returns no group, the
    one-element unpacking at line 246 raises [ValueError], and no stream is
    built.  And whatever cutoff [construct] is handed, it keeps none of it:
    the stream it returns is the same for every cutoff. *)
Theorem stream_without_event_has_no_cutoff :
  (∀ (self : Catalog) (uid : value) (name : string) (is_complete : bool),
     filter (λ e, event_descriptor e
                  ∈ descriptor_uid
                    <$> find_descriptors (_event_descriptor_collection self) uid name)
       (_event_collection self) = [] →
     _build_event_stream self uid name is_complete = Err ValueError)
  ∧ (∀ uid cutoff cutoff' name event_descriptors,
       construct uid cutoff name event_descriptors
       = construct uid cutoff' name event_descriptors).
Proof.
  split; [|done].
  intros self uid name is_complete Hnone.
  unfold _build_event_stream, event_stream_cutoff, aggregate_highest_seq_num.
  by rewrite Hnone.
Qed.

(** Run A's stream "primary" has two descriptors and no event: building it
    raises. *)
Lemma no_event_no_cutoff :
  find_descriptors
    (_event_descriptor_collection (MkCatalog db_no_event db_no_event ∅ [] None None))
    (VStr "A") "primary" = primary_descriptors
  ∧ _build_event_stream (MkCatalog db_no_event db_no_event ∅ [] None None)
      (VStr "A") "primary" false
    = Err ValueError.
Proof.
  split; [vm_compute; reflexivity|].
  apply (proj1 stream_without_event_has_no_cutoff
           (MkCatalog db_no_event db_no_event ∅ [] None None)
           (VStr "A") "primary" false).
  vm_compute. reflexivity.
Defined.

(** ** The dataset of a stream *)

(** C9 (what the code does): [_build_dataset] builds no task at all.  On
    descriptors whose first one has a data key it raises [NameError] at its
    first statement; it never returns an array, whatever it is given. *)
Theorem build_dataset_builds_no_task :
  (∀ uid run name key keys rest,
     _build_dataset (DescriptorDoc uid run name (key :: keys) :: rest)
     = Err NameError)
  ∧ (∀ event_descriptors array,
       _build_dataset event_descriptors ≠ Ok (Some array)).
Proof.
  split; [done|].
  intros [|d rest] array; [done|]. unfold _build_dataset.
  by destruct (descriptor_data_keys d).
Qed.

(** ** Sorting by [_id] *)

#[global] Instance id_le_total : Total id_le.
Proof. intros a b. unfold id_le. lia. Qed.

#[global] Instance id_le_trans : Transitive id_le.
Proof. intros a b c. unfold id_le. lia. Qed.

Lemma StronglySorted_filter {A} (R : relation A) (P : A → Prop)
    `{!∀ x, Decision (P x)} (l : list A) :
  StronglySorted R l → StronglySorted R (filter P l).
Proof.
  induction 1 as [|x l Hl IH Hx]; [constructor|].
  rewrite filter_cons. destruct (decide (P x)); [|done].
  constructor; [done|].
  apply Forall_forall. intros y Hy. apply list_elem_of_filter in Hy as [_ Hy].
  rewrite Forall_forall in Hx. by apply Hx.
Qed.

Lemma StronglySorted_weaken {A} (R1 R2 : relation A) (l : list A) :
  (∀ a b, R1 a b → R2 a b) → StronglySorted R1 l → StronglySorted R2 l.
Proof.
  intros Himp. induction 1 as [|x l Hl IH Hx]; constructor; [done|].
  eapply Forall_impl; [exact Hx|]. intros y. apply Himp.
Qed.

Lemma same_id_same_document (l : list document) (a b : document) :
  NoDup (_id <$> l) → a ∈ l → b ∈ l → _id a = _id b → a = b.
Proof.
  induction l as [|x l IH]; intros Hnd Ha Hb Hid; [by apply elem_of_nil in Ha|].
  rewrite fmap_cons in Hnd. apply NoDup_cons in Hnd as [Hx Hnd].
  apply elem_of_cons in Ha as [->|Ha]; apply elem_of_cons in Hb as [->|Hb].
  - done.
  - destruct Hx. rewrite Hid. apply list_elem_of_fmap. eauto.
  - destruct Hx. rewrite <-Hid. apply list_elem_of_fmap. eauto.
  - by apply IH.
Qed.

Lemma sort_by_id_Permutation (l : list document) : sort_by_id l ≡ₚ l.
Proof. apply merge_sort_Permutation. Qed.

Lemma sort_by_id_sorted (l : list document) : StronglySorted id_le (sort_by_id l).
Proof. apply StronglySorted_merge_sort; apply _. Qed.

Lemma sort_by_id_length (l : list document) : length (sort_by_id l) = length l.
Proof. by rewrite sort_by_id_Permutation. Qed.

(** Sorting commutes with filtering when no two documents share an [_id]. *)
Lemma sort_by_id_filter (P : document → Prop) `{!∀ x, Decision (P x)}
    (l : list document) :
  NoDup (_id <$> l) → sort_by_id (filter P l) = filter P (sort_by_id l).
Proof.
  intros Hnd. apply (StronglySorted_unique_strong id_le).
  - intros a b Ha Hb Hab Hba.
    apply (same_id_same_document l); [done| | |unfold id_le in *; lia].
    + rewrite sort_by_id_Permutation in Ha.
      by apply list_elem_of_filter in Ha as [_ ?].
    + apply list_elem_of_filter in Hb as [_ Hb].
      by rewrite sort_by_id_Permutation in Hb.
  - apply sort_by_id_sorted.
  - apply StronglySorted_filter, sort_by_id_sorted.
  - by rewrite !sort_by_id_Permutation.
Qed.

Lemma ascending_ids_NoDup (coll : list document) :
  ascending_ids coll → NoDup (_id <$> coll).
Proof.
  induction 1 as [|x l Hl IH Hx]; [constructor|].
  rewrite fmap_cons. constructor; [|done].
  intros (y & Hid & Hy)%list_elem_of_fmap.
  rewrite Forall_forall in Hx. specialize (Hx y Hy). lia.
Qed.

Lemma ascending_ids_sorted (coll : list document) :
  ascending_ids coll → sort_by_id coll = coll.
Proof.
  intros Hasc. apply (StronglySorted_unique_strong id_le).
  - intros a b Ha Hb Hab Hba.
    apply (same_id_same_document coll);
      [by apply ascending_ids_NoDup| |done|unfold id_le in *; lia].
    by rewrite sort_by_id_Permutation in Ha.
  - apply sort_by_id_sorted.
  - eapply StronglySorted_weaken; [|exact Hasc]. intros a b. unfold id_le. lia.
  - apply sort_by_id_Permutation.
Qed.

(** In a sorted list without repeated ids, the documents past [x] are the
    documents whose [_id] is greater than that of [x]. *)
Lemma filter_after (pre suf : list document) (x : document) :
  StronglySorted id_le (pre ++ x :: suf) →
  NoDup (_id <$> pre ++ x :: suf) →
  filter (λ d, _id x < _id d) (pre ++ x :: suf) = suf.
Proof.
  intros Hsorted Hnd.
  apply StronglySorted_app in Hsorted as (Hpre & _ & Hsuf).
  apply StronglySorted_cons in Hsuf as [Hx _]. rewrite Forall_forall in Hx.
  rewrite fmap_app, fmap_cons in Hnd.
  apply NoDup_app in Hnd as (_ & _ & Hnd). apply NoDup_cons in Hnd as [Hnx _].
  rewrite filter_app, filter_cons_False by lia.
  rewrite filter_all_rejected, filter_all_accepted; [done| |].
  - intros y Hy. assert (_id x ≤ _id y) by by apply Hx.
    assert (_id x ≠ _id y); [|lia].
    intros Heq. apply Hnx. rewrite Heq. apply list_elem_of_fmap. eauto.
  - intros d Hd. assert (_id d ≤ _id x); [|lia].
    apply (Hpre d x); [done|by left].
Qed.

(** ** Pagination *)

Lemma dict_set_absent {V} (k : string) (v : V) (d : list (string * V)) :
  dict_get k d = None → dict_set k v d = d ++ [(k, v)].
Proof.
  induction d as [|[k' v'] d IH]; simpl; [done|].
  destruct (decide (k' = k)); [done|]. intros Hd. by rewrite IH.
Qed.

Lemma dict_set_last {V} (k : string) (v v' : V) (d : list (string * V)) :
  dict_get k d = None → dict_set k v' (d ++ [(k, v)]) = d ++ [(k, v')].
Proof.
  induction d as [|[k0 v0] d IH]; simpl.
  - by rewrite decide_True.
  - destruct (decide (k0 = k)); [done|]. intros Hd. by rewrite IH.
Qed.

Section Pagination.
Context `{!StoreOperators}.

Lemma matches_app (q1 q2 : query) (d : document) :
  matches (q1 ++ q2) d = matches q1 d && matches q2 d.
Proof. apply forallb_app. Qed.

Lemma matches_id_gt (last : Z) (d : document) :
  matches [("_id", id_gt last)] d = bool_decide (last < _id d).
Proof. unfold matches. simpl. by rewrite !andb_true_r. Qed.

Lemma find_after (coll : list document) (q : query) (last : Z) :
  find coll (q ++ [("_id", id_gt last)])
  = filter (λ d, last < _id d) (find coll q).
Proof.
  unfold find. rewrite list_filter_filter. apply list_filter_iff.
  intros d. rewrite matches_app, matches_id_gt.
  rewrite andb_True, bool_decide_spec. tauto.
Qed.

Lemma find_NoDup (coll : list document) (q : query) :
  NoDup (_id <$> coll) → NoDup (_id <$> find coll q).
Proof.
  intros Hnd. eapply sublist_NoDup; [exact Hnd|].
  apply fmap_sublist. apply sublist_filter.
Qed.

(** After a round that ended on [x], the next cursor holds the documents
    that follow [x] in the sorted result. *)
Lemma next_cursor (coll : list document) (q : query) (pre suf : list document)
    (x : document) :
  NoDup (_id <$> coll) →
  sort_by_id (find coll q) = pre ++ x :: suf →
  sort_by_id (find coll (q ++ [("_id", id_gt (_id x))])) = suf.
Proof.
  intros Hnd Hsplit.
  rewrite find_after, sort_by_id_filter by by apply find_NoDup.
  rewrite Hsplit. apply filter_after.
  - rewrite <-Hsplit. apply sort_by_id_sorted.
  - rewrite <-Hsplit, sort_by_id_Permutation. by apply find_NoDup.
Qed.

Lemma round_limit_positive (limit : option Z) (tally : Z) :
  (∀ lim, limit = Some lim → tally < lim) → 0 < round_limit limit tally.
Proof.
  intros Hlim. unfold round_limit, CURSOR_LIMIT.
  destruct limit as [lim|]; [|lia].
  specialize (Hlim lim eq_refl). case_decide; lia.
Qed.

Lemma cursor_limit_take (n : Z) (l : list document) :
  0 < n → cursor_limit n l = take (Z.to_nat n) l.
Proof.
  intros Hn. unfold cursor_limit. rewrite decide_False by lia.
  f_equal. lia.
Qed.

Lemma chunked_loop_drains (coll : list document) (q : query) :
  NoDup (_id <$> coll) →
  dict_get "_id" q = None →
  ∀ (fuel : nat) (limit : option Z) (pre rest : list document) (cur : query)
    (tally : Z),
    sort_by_id (find coll q) = pre ++ rest →
    (∀ c, dict_set "_id" c cur = q ++ [("_id", c)]) →
    (∀ lim, limit = Some lim → tally < lim) →
    (length rest < fuel)%nat →
    chunked_loop fuel coll limit cur tally
      (cursor_limit (round_limit limit tally) rest)
    = Some (fields <$> owed limit tally rest).
Proof.
  intros Hnd Hq fuel limit.
  induction fuel as [|fuel IH]; intros pre rest cur tally Hsplit Hcur Hlim Hfuel;
    [lia|].
  pose proof (round_limit_positive limit tally Hlim) as Hpos.
  rewrite cursor_limit_take by done.
  set (n := Z.to_nat (round_limit limit tally)).
  assert (Hn : (0 < n)%nat) by (unfold n; lia).
  cbn [chunked_loop].
  destruct (last (take n rest)) as [x|] eqn:Hlast.
  2: { apply last_None, take_nil_inv in Hlast as [?| ->]; [lia|].
       destruct limit; simpl; by rewrite ?take_nil. }
  apply last_Some in Hlast as [its Hits].
  rewrite Hcur.
  assert (Hnext : sort_by_id (find coll (q ++ [("_id", id_gt (_id x))]))
                  = drop n rest).
  { apply (next_cursor coll q (pre ++ its)); [done|].
    rewrite Hsplit, <-(take_drop n rest) at 1.
    rewrite Hits, <-!app_assoc. done. }
  fold (id_gt (_id x)). rewrite Hnext.
  assert (Hlen : (0 < length (take n rest))%nat).
  { rewrite Hits, length_app. simpl. lia. }
  rewrite length_take in Hlen.
  assert (Hstep : ∀ tally',
    tally' = tally + Z.of_nat (length (take n rest)) →
    (∀ lim, limit = Some lim → tally' < lim) →
    chunked_loop fuel coll limit (q ++ [("_id", id_gt (_id x))]) tally'
      (cursor_limit (round_limit limit tally') (drop n rest))
    = Some (fields <$> owed limit tally' (drop n rest))).
  { intros tally' -> Hlim'.
    apply (IH (pre ++ take n rest)); [| |done|].
    - by rewrite <-app_assoc, take_drop.
    - intros c. by apply dict_set_last.
    - rewrite length_drop. lia. }
  destruct limit as [lim|]; cbn [owed].
  - specialize (Hlim lim eq_refl).
    assert (Hn' : (n ≤ Z.to_nat (lim - tally))%nat).
    { unfold n, round_limit. case_decide; lia. }
    case_decide as Hdone.
    + f_equal. f_equal. rewrite length_take in Hdone.
      assert (n = Z.to_nat (lim - tally)) as <- by lia. done.
    + rewrite length_take in Hdone.
      pose proof (length_take rest n) as Htake.
      fold (round_limit (Some lim) (tally + Z.of_nat (length (take n rest)))).
      rewrite Hstep; [|done|intros ? [= <-]; lia].
      cbn [owed fmap option_fmap option_map]. f_equal.
      rewrite <-fmap_app. f_equal.
      rewrite take_take_drop. rewrite Htake.
      destruct (decide (n ≤ length rest)%nat).
      * f_equal. lia.
      * rewrite !take_ge by lia. done.
  - change CURSOR_LIMIT with (round_limit None (tally + Z.of_nat (length (take n rest)))).
    rewrite Hstep; [|done|done].
    cbn [owed fmap option_fmap option_map]. f_equal.
    by rewrite <-fmap_app, take_drop.
Qed.

(** Draining the generator: the matching documents in ascending [_id]
    order, from position [skip] on, [limit] of them when a limit is given,
    each stripped of its [_id]. *)
Lemma chunked_find_sorted (coll : list document) (q : query) (skip : nat)
    (limit : option Z) (fuel : nat) :
  NoDup (_id <$> coll) →
  dict_get "_id" q = None →
  (∀ lim, limit = Some lim → 0 < lim) →
  (length coll < fuel)%nat →
  _chunked_find fuel coll q skip limit
  = Some (fields <$> owed limit 0 (drop skip (sort_by_id (find coll q)))).
Proof.
  intros Hnd Hq Hlim Hfuel. unfold _chunked_find, cursor_skip.
  replace (match limit with
           | Some lim => if decide (lim < CURSOR_LIMIT) then lim else CURSOR_LIMIT
           | None => CURSOR_LIMIT
           end) with (round_limit limit 0)
    by (unfold round_limit; destruct limit; by rewrite ?Z.sub_0_r).
  apply (chunked_loop_drains coll q Hnd Hq fuel limit
           (take skip (sort_by_id (find coll q)))).
  - by rewrite take_drop.
  - intros c. by apply dict_set_absent.
  - done.
  - rewrite length_drop, sort_by_id_length.
    pose proof (length_filter (λ d, matches q d) coll). unfold find. lia.
Qed.

End Pagination.

(** On a collection in strictly ascending [_id] order, for a filter without
    a top-level ["_id"] key (every filter [_mongo_query] builds is one), any
    skip, and a limit that is absent or positive, draining [_chunked_find]
    yields the matching documents in collection order, from position [skip]
    on, at most [limit] of them, each exactly once and without its [_id]. *)
Lemma chunked_find_yields_matching `{!StoreOperators} (coll : list document)
    (q : query) (skip : nat) (limit : option Z) (fuel : nat) :
  ascending_ids coll →
  dict_get "_id" q = None →
  (∀ lim, limit = Some lim → 0 < lim) →
  (length coll < fuel)%nat →
  _chunked_find fuel coll q skip limit
  = Some (fields <$>
            match limit with
            | Some lim => take (Z.to_nat lim)
            | None => id
            end (drop skip (filter (λ d, matches q d) coll))).
Proof.
  intros Hasc Hq Hlim Hfuel.
  rewrite chunked_find_sorted by auto using ascending_ids_NoDup.
  rewrite ascending_ids_sorted by by apply StronglySorted_filter.
  unfold owed, find. destruct limit; [|done]. by rewrite Z.sub_0_r.
Qed.

(** 250 documents, 5 skipped, 120 wanted: two rounds, of 100 and of 20. *)
Lemma chunked_find_two_rounds :
  @_chunked_find uninterpreted 251 runs_250 [] 5 (Some 120)
  = Some (fields <$> take 120 (drop 5 runs_250)).
Proof.
  rewrite (@chunked_find_yields_matching uninterpreted runs_250 [] 5 (Some 120) 251).
  - reflexivity.
  - apply (bool_decide_unpack _). vm_compute. exact I.
  - reflexivity.
  - intros lim [= <-]. lia.
  - vm_compute. lia.
Defined.

(** C1 (what the code does): an empty slice such as [1:1] makes
    [_keys_slice] ask for [limit = 0] (line 394).  The generator tests the
    limit for [None] only and hands 0 to [.limit], which reads it as no
    limit; the count still owed never becomes 0 again.  On the three runs A,
    B, C with one skipped, it yields B and C where at most 0 documents were
    asked for. *)
Theorem chunked_find_limit_zero :
  ascending_ids runs_ABC
  ∧ @_chunked_find uninterpreted 3 runs_ABC [] 1 (Some 0)
    = Some (fields <$> [run_doc 2 "B"; run_doc 3 "C"])
  ∧ @_chunked_find uninterpreted 3 runs_ABC [] 1 (Some 0)
    ≠ Some (fields <$> take 0 (drop 1 (@find uninterpreted runs_ABC [])))
  ∧ @_keys_slice uninterpreted 3 (MkCatalog db_ABC db_ABC ∅ [] None None)
      (Some 1%nat) (Some 1%nat)
    = Some (Ok [VStr "B"; VStr "C"]).
Proof.
  assert (Hdrain : @_chunked_find uninterpreted 3 runs_ABC [] 1 (Some 0)
                   = Some (fields <$> [run_doc 2 "B"; run_doc 3 "C"]))
    by (vm_compute; reflexivity).
  split; [|split; [exact Hdrain|split]].
  - apply (bool_decide_unpack _). vm_compute. exact I.
  - rewrite Hdrain. by intros [= Heq].
  - vm_compute. reflexivity.
Qed.

(** ** Length and iteration *)

Section LenIter.
Context `{!StoreOperators}.

Lemma mongo_query_no_id (self : Catalog) :
  dict_get "_id" (_mongo_query self []) = None.
Proof.
  unfold _mongo_query. by destruct (_mongo_queries self ++ []).
Qed.

Lemma rmapM_uid (docs : list document) :
  Forall (λ d, is_Some (fields d !! "uid")) docs →
  ∃ keys,
    rmapM (λ run_start_doc : gmap string value,
             match run_start_doc !! "uid" with
             | Some uid => Ok uid
             | None => Err KeyError
             end) (fields <$> docs) = Ok keys
    ∧ length keys = length docs.
Proof.
  induction 1 as [|d docs [uid Hd] _ (keys & IH & Hlen)].
  - by exists [].
  - exists (uid :: keys). rewrite fmap_cons. cbn [rmapM].
    rewrite Hd, IH. simpl. by rewrite Hlen.
Qed.

(** C3: when no two run documents share an [_id] and each has a uid,
    draining [__iter__] succeeds, and [__len__] is the number of keys it
    yielded, whatever the intent list, access policy and identity. *)
Theorem len_counts_iter (self : Catalog) (fuel : nat) :
  NoDup (_id <$> _run_start_collection self) →
  Forall (λ d, is_Some (fields d !! "uid")) (_run_start_collection self) →
  (length (_run_start_collection self) < fuel)%nat →
  ∃ keys,
    __iter__ fuel self = Some (Ok keys)
    ∧ __len__ self = Z.of_nat (length keys).
Proof.
  intros Hnd Huid Hfuel. unfold __iter__, __len__, authenticated.
  set (view := MkCatalog _ _ _ _ _ _).
  change (_run_start_collection view) with (_run_start_collection self).
  rewrite chunked_find_sorted; [|done|apply mongo_query_no_id|done|done].
  cbn [owed fmap option_fmap option_map]. rewrite drop_0.
  destruct (rmapM_uid (sort_by_id (find (_run_start_collection self)
                                      (_mongo_query view []))))
    as (keys & Hkeys & Hlen).
  - rewrite Forall_forall in Huid |- *. intros d Hd. apply Huid.
    rewrite sort_by_id_Permutation in Hd.
    by apply list_elem_of_filter in Hd as [_ ?].
  - exists keys. rewrite Hkeys. split; [done|].
    unfold count_documents. by rewrite Hlen, sort_by_id_length.
Qed.

End LenIter.

(** Runs A, B, C searched for uids A and C: two keys, length 2. *)
Lemma len_counts_iter_AC :
  @__iter__ uninterpreted 4
    (MkCatalog db_ABC db_ABC ∅ [uid_in ["A"; "C"]] None None)
  = Some (Ok [VStr "A"; VStr "C"])
  ∧ @__len__ uninterpreted
      (MkCatalog db_ABC db_ABC ∅ [uid_in ["A"; "C"]] None None) = 2.
Proof.
  destruct (@len_counts_iter uninterpreted
              (MkCatalog db_ABC db_ABC ∅ [uid_in ["A"; "C"]] None None) 4)
    as (keys & Hiter & Hlen).
  - apply (bool_decide_unpack _). vm_compute. exact I.
  - repeat constructor; by eexists.
  - vm_compute. lia.
  - rewrite Hiter, Hlen. vm_compute in Hiter. injection Hiter as <-.
    split; reflexivity.
Defined.

(** Run A has no "baseline" stream: building it raises. *)
Lemma empty_stream_fails_baseline :
  _build_event_stream (MkCatalog db_primary db_primary ∅ [] None None)
    (VStr "A") "baseline" true
  = Err ValueError.
Proof.
  apply (empty_stream_fails (MkCatalog db_primary db_primary ∅ [] None None)
           (VStr "A") "baseline" true).
  vm_compute. reflexivity.
Defined.


(** * Further properties *)

(** ** Pagination in any storage order *)

Lemma StronglySorted_strict (l : list document) :
  StronglySorted id_le l → NoDup (_id <$> l) → ascending_ids l.
Proof.
  unfold ascending_ids.
  induction 1 as [|x l Hl IH Hx]; intros Hnd; [constructor|].
  rewrite fmap_cons in Hnd. apply NoDup_cons in Hnd as [Hnx Hnd].
  constructor; [by apply IH|].
  rewrite Forall_forall in Hx |- *. intros y Hy.
  assert (_id x ≤ _id y) by by apply Hx.
  assert (_id x ≠ _id y); [|lia].
  intros Heq. apply Hnx. rewrite Heq. apply list_elem_of_fmap. eauto.
Qed.

Section AnyOrder.
Context `{!StoreOperators}.

(** X1: whatever the order in which the collection stores its documents,
    as long as no two share an [_id], draining [_chunked_find] yields the
    matching documents sorted by ascending [_id], from position [skip] on,
    at most [limit] of them, each stripped of its [_id]. *)
Theorem chunked_find_any_order (coll : list document) (q : query) (skip : nat)
    (limit : option Z) (fuel : nat) :
  NoDup (_id <$> coll) →
  dict_get "_id" q = None →
  (∀ lim, limit = Some lim → 0 < lim) →
  (length coll < fuel)%nat →
  ∃ sorted,
    sorted ≡ₚ filter (λ d, matches q d) coll
    ∧ ascending_ids sorted
    ∧ _chunked_find fuel coll q skip limit
      = Some (fields <$>
                match limit with
                | Some lim => take (Z.to_nat lim)
                | None => id
                end (drop skip sorted)).
Proof.
  intros Hnd Hq Hlim Hfuel. exists (sort_by_id (find coll q)).
  split; [apply sort_by_id_Permutation|]. split.
  - apply StronglySorted_strict; [apply sort_by_id_sorted|].
    rewrite sort_by_id_Permutation. by apply find_NoDup.
  - rewrite chunked_find_sorted by done.
    unfold owed. destruct limit; [|done]. by rewrite Z.sub_0_r.
Qed.

Lemma chunked_loop_ignores_limit (coll : list document) (q : query) (lim : Z) :
  NoDup (_id <$> coll) →
  dict_get "_id" q = None →
  lim ≤ 0 →
  ∀ (fuel : nat) (pre rest : list document) (cur : query) (tally : Z) (k : nat),
    sort_by_id (find coll q) = pre ++ rest →
    (∀ c, dict_set "_id" c cur = q ++ [("_id", c)]) →
    0 ≤ tally →
    (1 ≤ k)%nat →
    (length rest < fuel)%nat →
    chunked_loop fuel coll (Some lim) cur tally (take k rest)
    = Some (fields <$> rest).
Proof.
  intros Hnd Hq Hlim fuel.
  induction fuel as [|fuel IH]; intros pre rest cur tally k Hsplit Hcur Htally Hk Hfuel;
    [lia|].
  cbn [chunked_loop].
  destruct (last (take k rest)) as [x|] eqn:Hlast.
  2: { by apply last_None, take_nil_inv in Hlast as [?| ->]; [lia|]. }
  apply last_Some in Hlast as [its Hits].
  rewrite Hcur.
  assert (Hnext : sort_by_id (find coll (q ++ [("_id", id_gt (_id x))]))
                  = drop k rest).
  { apply (next_cursor coll q (pre ++ its)); [done|].
    rewrite Hsplit, <-(take_drop k rest) at 1.
    rewrite Hits, <-!app_assoc. done. }
  fold (id_gt (_id x)). rewrite Hnext.
  assert (Hlen : (0 < length (take k rest))%nat).
  { rewrite Hits, length_app. simpl. lia. }
  rewrite decide_False by lia.
  rewrite decide_True by (unfold CURSOR_LIMIT; lia).
  unfold cursor_limit. rewrite decide_False by lia.
  rewrite (IH (pre ++ take k rest)).
  - cbn [fmap option_fmap option_map]. by rewrite <-fmap_app, take_drop.
  - by rewrite <-app_assoc, take_drop.
  - intros c. by apply dict_set_last.
  - lia.
  - lia.
  - rewrite length_drop. rewrite length_take in Hlen. lia.
Qed.

(** X2: a limit that is zero or negative does not limit anything: the
    generator yields what it yields without a limit, every matching document
    from position [skip] on.  ([.limit(0)] means no limit to the store, and
    the remaining count [limit - tally] never reaches zero.) *)
Theorem chunked_find_ignores_nonpositive_limit (coll : list document) (q : query)
    (skip : nat) (lim : Z) (fuel : nat) :
  NoDup (_id <$> coll) →
  dict_get "_id" q = None →
  lim ≤ 0 →
  (length coll < fuel)%nat →
  _chunked_find fuel coll q skip (Some lim)
  = Some (fields <$> drop skip (sort_by_id (find coll q)))
  ∧ _chunked_find fuel coll q skip (Some lim) = _chunked_find fuel coll q skip None.
Proof.
  intros Hnd Hq Hlim Hfuel.
  assert (Hall : _chunked_find fuel coll q skip (Some lim)
                 = Some (fields <$> drop skip (sort_by_id (find coll q)))).
  { unfold _chunked_find, cursor_skip.
    rewrite decide_True by (unfold CURSOR_LIMIT; lia).
    set (rest := drop skip (sort_by_id (find coll q))).
    assert (Hrest : (length rest < fuel)%nat).
    { unfold rest. rewrite length_drop, sort_by_id_length.
      pose proof (length_filter (λ d, matches q d) coll). unfold find. lia. }
    assert (Hk : ∃ k, (1 ≤ k)%nat ∧ cursor_limit lim rest = take k rest).
    { unfold cursor_limit. case_decide.
      - exists (S (length rest)). split; [lia|]. by rewrite take_ge by lia.
      - exists (Z.abs_nat lim). split; [lia|done]. }
    destruct Hk as (k & Hk & ->).
    apply (chunked_loop_ignores_limit coll q lim Hnd Hq Hlim fuel
             (take skip (sort_by_id (find coll q)))).
    - unfold rest. by rewrite take_drop.
    - intros c. by apply dict_set_absent.
    - lia.
    - done.
    - done. }
  split; [done|].
  rewrite Hall. symmetry.
  rewrite chunked_find_sorted by done. done.
Qed.

End AnyOrder.

(** Three documents stored as C, A, B, the first skipped, one wanted. *)
Lemma chunked_find_any_order_CAB :
  ∃ sorted,
    sorted ≡ₚ filter (λ d, @matches uninterpreted [] d)
                [run_doc 3 "C"; run_doc 1 "A"; run_doc 2 "B"]
    ∧ ascending_ids sorted
    ∧ @_chunked_find uninterpreted 4
        [run_doc 3 "C"; run_doc 1 "A"; run_doc 2 "B"] [] 1 (Some 1)
      = Some (fields <$> take 1 (drop 1 sorted)).
Proof.
  apply (@chunked_find_any_order uninterpreted
           [run_doc 3 "C"; run_doc 1 "A"; run_doc 2 "B"] [] 1 (Some 1) 4).
  - apply (bool_decide_unpack _). vm_compute. exact I.
  - reflexivity.
  - intros lim [= <-]. lia.
  - vm_compute. lia.
Defined.

(** A slice such as [2:1] asks for [limit = -1] and gets everything from
    position 2 on. *)
Lemma chunked_find_limit_minus_one :
  @_chunked_find uninterpreted 4 runs_ABC [] 2 (Some (-1))
  = Some (fields <$> [run_doc 3 "C"]).
Proof.
  destruct (@chunked_find_ignores_nonpositive_limit uninterpreted
              runs_ABC [] 2 (-1) 4) as [Hall _].
  - apply (bool_decide_unpack _). vm_compute. exact I.
  - reflexivity.
  - lia.
  - vm_compute. lia.
  - rewrite Hall. vm_compute. reflexivity.
Defined.

(** ** Lookup *)

Lemma effective_queries_extend (self : Catalog) :
  ∃ extra, effective_queries self = _high_level_queries self ++ extra.
Proof.
  unfold effective_queries. destruct (_access_policy self) as [[|lists]|].
  - exists []. by rewrite app_nil_r.
  - unfold modify_queries.
    destruct (is_admin (_authenticated_identity self)),
      (access_lists_get lists (_authenticated_identity self)) as [|uids].
    + exists []. by rewrite app_nil_r.
    + exists []. by rewrite app_nil_r.
    + exists []. by rewrite app_nil_r.
    + by exists [uid_in uids].
  - exists []. by rewrite app_nil_r.
Qed.

Section Lookup.
Context `{!StoreOperators}.

Lemma build_run_start (self : Catalog) (doc : gmap string value) (run : BlueskyRun) :
  _build_run self doc = Ok run → run_start run = doc.
Proof.
  unfold _build_run. destruct (doc !! "uid"); [|done]. by intros [= <-].
Qed.

(** X3: a lookup that succeeds returns a run built from a stored run-start
    document whose uid is the key and which satisfies the predicate of every
    stored intent: the key is looked up within the search results.  When no
    stored document has the key as its uid the lookup raises [KeyError]. *)
Theorem getitem_within_search_results (self : Catalog) (key : string) :
  (∀ run,
     __getitem__ self key = Ok run →
     ∃ d, d ∈ _run_start_collection self
          ∧ run_start run = fields d
          ∧ fields d !! "uid" = Some (VStr key)
          ∧ Forall (λ q, matches (query_registry q) d) (_high_level_queries self))
  ∧ ((∀ d, d ∈ _run_start_collection self → fields d !! "uid" ≠ Some (VStr key)) →
     __getitem__ self key = Err KeyError).
Proof.
  destruct (effective_queries_extend self) as [extra Hextra].
  unfold __getitem__, authenticated.
  set (view := MkCatalog _ _ _ _ _ _).
  change (_run_start_collection view) with (_run_start_collection self).
  assert (Hmatch : ∀ d,
    matches (_mongo_query view [[("uid", Literal (VStr key))]]) d →
    fields d !! "uid" = Some (VStr key)
    ∧ Forall (λ q, matches (query_registry q) d) (_high_level_queries self)).
  { intros d Hd. apply Is_true_true in Hd.
    rewrite matches_mongo_query, forallb_app in Hd.
    apply andb_true_iff in Hd as [Hqs Hlit].
    cbn [forallb] in Hlit. rewrite andb_true_r in Hlit.
    apply matches_uid_literal in Hlit. split; [done|].
    unfold _mongo_queries, view in Hqs. cbn [_high_level_queries] in Hqs.
    rewrite Hextra, fmap_app, forallb_app in Hqs.
    apply andb_true_iff in Hqs as [Hqs _].
    rewrite forallb_forall in Hqs. apply Forall_forall. intros q Hq.
    apply Is_true_true, Hqs, list_elem_of_In, list_elem_of_fmap. eauto. }
  split.
  - intros run Hrun. unfold find_one in Hrun.
    destruct (head (find (_run_start_collection self) _)) as [d|] eqn:Hhead;
      [|done].
    apply head_Some_elem_of, list_elem_of_filter in Hhead as [Hd Hin].
    apply Hmatch in Hd as [Huid Hqs].
    exists d. by rewrite (build_run_start _ _ _ Hrun).
  - intros Hnone. unfold find_one, find.
    rewrite filter_all_rejected; [done|].
    intros d Hin Hd. apply Hmatch in Hd as [Huid _]. by apply (Hnone d).
Qed.

End Lookup.

(** Runs A, B, C searched for uids A and C: looking up C finds it, looking
    up B, which the search excludes, does not. *)
Lemma getitem_AC :
  (∃ run d,
     @__getitem__ uninterpreted
       (MkCatalog db_ABC db_ABC ∅ [uid_in ["A"; "C"]] None None) "C" = Ok run
     ∧ d ∈ runs_ABC
     ∧ run_start run = fields d
     ∧ fields d !! "uid" = Some (VStr "C"))
  ∧ @__getitem__ uninterpreted
      (MkCatalog db_ABC db_ABC ∅ [uid_in ["A"; "C"]] None None) "B"
    = Err KeyError.
Proof.
  pose proof (@getitem_within_search_results uninterpreted
                (MkCatalog db_ABC db_ABC ∅ [uid_in ["A"; "C"]] None None) "C")
    as [Hfound _].
  split; [|vm_compute; reflexivity].
  destruct (@__getitem__ uninterpreted
              (MkCatalog db_ABC db_ABC ∅ [uid_in ["A"; "C"]] None None) "C")
    as [run|e] eqn:Hrun; [|vm_compute in Hrun; discriminate].
  destruct (Hfound run eq_refl) as (d & Hin & Hstart & Huid & _).
  by exists run, d.
Defined.

(** ** Runs and their streams *)

Lemma stop_in_documents (run : BlueskyRun) :
  "stop" ∈ (documents run).*1 ↔ is_Some (run_stop run).
Proof.
  unfold documents. destruct (run_stop run) as [stop_doc|]; simpl.
  - split; [eauto|]. intros _. right. left.
  - split; [|by intros [? ?]].
    intros [Hne|Hnil]%elem_of_cons; [discriminate|by apply elem_of_nil in Hnil].
Qed.

Lemma find_descriptors_elem (coll : list descriptor_doc) (uid : value)
    (name : string) (d : descriptor_doc) :
  d ∈ find_descriptors coll uid name
  ↔ d ∈ coll ∧ VStr (descriptor_run_start d) = uid ∧ descriptor_name d = name.
Proof. unfold find_descriptors. rewrite list_elem_of_filter. tauto. Qed.

Section Runs.
Context `{!StoreOperators}.

(** X4: from a run-start document with a uid, [_build_run] builds a run
    that keeps the document as its start, has the matching stop document if
    the stop collection holds one, and lists each stream name of the run's
    descriptors exactly once; every stream it lists has at least one
    descriptor, and is marked complete exactly when the run's [documents]
    include a stop document. *)
Theorem build_run_lists_streams (self : Catalog) (doc : gmap string value)
    (uid : value) :
  doc !! "uid" = Some uid →
  ∃ run,
    _build_run self doc = Ok run
    ∧ run_start run = doc
    ∧ run_stop run = _get_stop_doc self uid
    ∧ NoDup (run_mapping run).*1
    ∧ (∀ name,
         name ∈ (run_mapping run).*1
         ↔ find_descriptors (_event_descriptor_collection self) uid name ≠ [])
    ∧ (∀ name p,
         (name, p) ∈ run_mapping run →
         p = Partial uid name (bool_decide ("stop" ∈ (documents run).*1))).
Proof.
  intros Huid. unfold _build_run. rewrite Huid.
  eexists. split; [reflexivity|]. cbn [run_start run_stop run_mapping].
  split; [done|]. split; [done|].
  set (names := remove_dups _).
  assert (Hfst : ∀ complete,
    ((λ stream_name, (stream_name, Partial uid stream_name complete)) <$> names).*1
    = names).
  { intros complete. rewrite <-list_fmap_compose. apply list_fmap_id. }
  rewrite Hfst. split; [apply NoDup_remove_dups|]. split.
  - intros name. unfold names.
    rewrite elem_of_remove_dups, list_elem_of_fmap. split.
    + intros (d & -> & Hd). apply list_elem_of_filter in Hd as [Hrun Hd].
      intros Hnil.
      assert (Hin : d ∈ find_descriptors (_event_descriptor_collection self) uid
                          (descriptor_name d))
        by by apply find_descriptors_elem.
      rewrite Hnil in Hin. by apply elem_of_nil in Hin.
    + intros Hsome.
      destruct (find_descriptors (_event_descriptor_collection self) uid name)
        as [|d ds] eqn:Hfound; [done|].
      assert (Hin : d ∈ find_descriptors (_event_descriptor_collection self) uid name)
        by (rewrite Hfound; left).
      apply find_descriptors_elem in Hin as (Hin & Hrun & Hname).
      exists d. split; [done|]. by apply list_elem_of_filter.
  - intros name p (n & [= -> ->] & _)%list_elem_of_fmap.
    f_equal. apply bool_decide_ext. symmetry. apply stop_in_documents.
Qed.

End Runs.

(** Run A of the store with two "primary" descriptors. *)
Lemma build_run_A :
  ∃ run,
    @_build_run uninterpreted (MkCatalog db_primary db_primary ∅ [] None None)
      {[ "uid" := VStr "A" ]} = Ok run
    ∧ (run_mapping run).*1 = ["primary"]
    ∧ documents run = [("start", {[ "uid" := VStr "A" ]})].
Proof.
  destruct (@build_run_lists_streams uninterpreted
              (MkCatalog db_primary db_primary ∅ [] None None)
              {[ "uid" := VStr "A" ]} (VStr "A")) as (run & Hrun & _);
    [reflexivity|].
  exists run. split; [exact Hrun|].
  vm_compute in Hrun. injection Hrun as <-. split; reflexivity.
Defined.

Section ListedStreams.
Context `{!StoreOperators}.

Lemma build_run_mapping_elem (self : Catalog) (doc : gmap string value)
    (run : BlueskyRun) (name : string) (p : partial) :
  _build_run self doc = Ok run →
  (name, p) ∈ run_mapping run →
  partial_stream_name p = name
  ∧ doc !! "uid" = Some (partial_run_start_uid p)
  ∧ find_descriptors (_event_descriptor_collection self)
      (partial_run_start_uid p) name ≠ [].
Proof.
  unfold _build_run. destruct (doc !! "uid") as [uid|]; [|done].
  intros [= <-]. cbn [run_mapping].
  intros (n & [= -> ->] & Hn)%list_elem_of_fmap. cbn.
  split; [done|]. split; [done|].
  apply elem_of_remove_dups, list_elem_of_fmap in Hn as (d & -> & Hd).
  apply list_elem_of_filter in Hd as [Hrun Hd]. intros Hnil.
  assert (Hin : d ∈ find_descriptors (_event_descriptor_collection self) uid
                      (descriptor_name d))
    by by apply find_descriptors_elem.
  rewrite Hnil in Hin. by apply elem_of_nil in Hin.
Qed.

(** X5: building a stream that a built run lists never fails for want of a
    descriptor.  It raises exactly when no Event document references the
    stream's descriptors yet; otherwise it returns a stream that carries the
    descriptors found and the listed name.  Forcing the ["data"] entry of
    that stream calls [_build_dataset] on those descriptors, which yields no
    array: it raises [NameError] when the first descriptor has a data key. *)
Theorem listed_stream_builds (self : Catalog) (doc : gmap string value)
    (run : BlueskyRun) (name : string) (p : partial) :
  _build_run self doc = Ok run →
  (name, p) ∈ run_mapping run →
  let found :=
    find_descriptors (_event_descriptor_collection self)
      (partial_run_start_uid p) (partial_stream_name p) in
  let events :=
    filter (λ e, event_descriptor e ∈ descriptor_uid <$> found)
      (_event_collection self) in
  let built :=
    _build_event_stream self (partial_run_start_uid p) (partial_stream_name p)
      (partial_is_complete p) in
  found ≠ []
  ∧ (events = [] → built = Err ValueError)
  ∧ (events ≠ [] →
     ∃ s, built = Ok s
          ∧ descriptors s = found
          ∧ stream_name s = name
          ∧ stream_data s = _build_dataset found
          ∧ (∀ array, stream_data s ≠ Ok (Some array))
          ∧ (∀ d ds, found = d :: ds → descriptor_data_keys d ≠ [] →
                     stream_data s = Err NameError)).
Proof.
  intros Hrun Hin.
  destruct (build_run_mapping_elem self doc run name p Hrun Hin)
    as (Hname & _ & Hfound).
  rewrite Hname. intros found events built.
  subst built. unfold _build_event_stream, event_stream_cutoff,
    aggregate_highest_seq_num.
  fold found. fold events.
  split; [done|]. split.
  - intros ->. done.
  - intros Hsome. destruct events as [|e es]; [done|]. cbn [rbind].
    destruct found as [|d ds] eqn:Hd; [done|].
    eexists. split; [reflexivity|]. split; [done|]. split; [done|].
    unfold stream_data, _build_dataset. cbn [stream_descriptors].
    split; [done|]. split.
    + intros array. by destruct (descriptor_data_keys d).
    + intros d' ds' [= <- <-] Hkeys. by destruct (descriptor_data_keys d).
Qed.

End ListedStreams.

(** Stream "primary" of run A has events: it builds, and forcing its data
    entry raises. *)
Lemma listed_stream_primary :
  ∃ s,
    _build_event_stream (MkCatalog db_primary db_primary ∅ [] None None)
      (VStr "A") "primary" false = Ok s
    ∧ descriptors s = primary_descriptors
    ∧ stream_data s = Err NameError.
Proof.
  destruct (@listed_stream_builds uninterpreted
              (MkCatalog db_primary db_primary ∅ [] None None)
              {[ "uid" := VStr "A" ]}
              (Run [("primary", Partial (VStr "A") "primary" false)]
                 {[ "uid" := VStr "A" ]} None)
              "primary" (Partial (VStr "A") "primary" false))
    as (_ & _ & Hbuilt).
  - vm_compute. reflexivity.
  - left.
  - destruct Hbuilt as (s & Hs & Hdesc & _ & Hdata & _).
    + vm_compute. discriminate.
    + exists s. split; [exact Hs|]. split.
      * rewrite Hdesc. vm_compute. reflexivity.
      * rewrite Hdata. vm_compute. reflexivity.
Defined.

(** ** Binding an identity through a policy *)

(** X6: [filter_results] of either policy returns a Catalog bound to the
    given identity, with the handles, metadata and policy of its input and
    with no intent at all: a search made before the binding is forgotten.
    Once bound to an identity, [authenticated_as] refuses to bind again. *)
Theorem filter_results_forgets_search (policy : access_policy) (catalog : Catalog)
    (q : intent) (aid : option identity) :
  (∃ bound,
     filter_results policy catalog aid = Ok bound
     ∧ _authenticated_identity bound = aid
     ∧ _high_level_queries bound = []
     ∧ _access_policy bound = _access_policy catalog
     ∧ _metadatastore_db bound = _metadatastore_db catalog
     ∧ _asset_registry_db bound = _asset_registry_db catalog
     ∧ _metadata bound = _metadata catalog)
  ∧ rbind (search catalog q) (λ found, filter_results policy found aid)
    = filter_results policy catalog aid
  ∧ (∀ who other,
       rbind (filter_results policy catalog (Some who))
         (λ bound, authenticated_as bound other)
       = Err RuntimeError).
Proof.
  unfold filter_results, search, authenticated. rewrite !Catalog_init_ok.
  split; [|split].
  - eexists. split; [reflexivity|]. done.
  - cbn [rbind]. by rewrite Catalog_init_ok.
  - intros who other. by rewrite Catalog_init_ok.
Qed.

(** ** Positional access *)

Lemma rmapM_Ok_length {A B} (f : A → result B) (l : list A) (ys : list B) :
  rmapM f l = Ok ys → length ys = length l.
Proof.
  revert ys. induction l as [|x l IH]; intros ys; simpl.
  - by intros [= <-].
  - destruct (f x) as [y|]; [|done]. simpl.
    destruct (rmapM f l) as [ys'|]; [|done]. simpl.
    intros [= <-]. simpl. by rewrite (IH ys').
Qed.

Lemma rmapM_take_drop {A B} (f : A → result B) (l : list A) (ys : list B) (n : nat) :
  rmapM f l = Ok ys →
  rmapM f (take n l) = Ok (take n ys) ∧ rmapM f (drop n l) = Ok (drop n ys).
Proof.
  revert ys n. induction l as [|x l IH]; intros ys n; simpl.
  - intros [= <-]. by destruct n.
  - destruct (f x) as [y|] eqn:Hx; [|done]. simpl.
    destruct (rmapM f l) as [ys'|] eqn:Hl; [|done]. simpl.
    intros [= <-]. destruct n as [|n]; simpl.
    + by rewrite Hx, Hl.
    + destruct (IH ys' n eq_refl) as [Htake Hdrop].
      by rewrite Hx, Htake.
Qed.

Section Slices.
Context `{!StoreOperators}.

(** X7: with a uid on every run document and no [_id] shared, a slice of
    the keys is that slice of the whole key sequence: [start:stop] with
    [start < stop] gives the keys at positions [start] to [stop - 1],
    [start:] the keys from [start] on, and [:stop] the first [stop] keys. *)
Theorem keys_slice_of_all_keys (self : Catalog) (start stop : nat) (fuel : nat) :
  NoDup (_id <$> _run_start_collection self) →
  Forall (λ d, is_Some (fields d !! "uid")) (_run_start_collection self) →
  (length (_run_start_collection self) < fuel)%nat →
  (start < stop)%nat →
  ∃ keys,
    _keys_slice fuel self None None = Some (Ok keys)
    ∧ _keys_slice fuel self (Some start) (Some stop)
      = Some (Ok (take (stop - start) (drop start keys)))
    ∧ _keys_slice fuel self (Some start) None = Some (Ok (drop start keys))
    ∧ _keys_slice fuel self None (Some stop) = Some (Ok (take stop keys)).
Proof.
  intros Hnd Huid Hfuel Hlt. unfold _keys_slice.
  cbn [default from_option id fmap option_fmap option_map].
  change (Z.of_nat 0) with 0.
  destruct (rmapM_uid (sort_by_id (find (_run_start_collection self)
                                      (_mongo_query self []))))
    as (keys & Hkeys & _).
  { rewrite Forall_forall in Huid |- *. intros d Hd. apply Huid.
    rewrite sort_by_id_Permutation in Hd.
    by apply list_elem_of_filter in Hd as [_ ?]. }
  exists keys.
  rewrite !chunked_find_sorted;
    try done; try apply mongo_query_no_id; try (intros ? [= <-]; lia).
  cbn [owed fmap option_fmap option_map].
  rewrite drop_0, !Z.sub_0_r, !fmap_take, !fmap_drop.
  replace (Z.to_nat (Z.of_nat stop - Z.of_nat start)) with (stop - start)%nat by lia.
  rewrite Nat2Z.id.
  destruct (rmapM_take_drop _ _ _ start Hkeys) as [_ Hdrop].
  destruct (rmapM_take_drop _ _ _ (stop - start) Hdrop) as [Hslice _].
  destruct (rmapM_take_drop _ _ _ stop Hkeys) as [Htake _].
  by rewrite Hkeys, Hdrop, Hslice, Htake.
Qed.

Lemma items_keys (self : Catalog) (docs : list (gmap string value)) :
  (∀ items,
     rmapM (λ run_start_doc : gmap string value,
              match run_start_doc !! "uid" with
              | Some uid =>
                  rbind (_build_run self run_start_doc) (λ run, Ok (uid, run))
              | None => Err KeyError
              end) docs = Ok items →
     rmapM (λ run_start_doc : gmap string value,
              match run_start_doc !! "uid" with
              | Some uid => Ok uid
              | None => Err KeyError
              end) docs = Ok items.*1
     ∧ Forall (λ item, run_start item.2 !! "uid" = Some item.1) items)
  ∧ (∀ keys,
       rmapM (λ run_start_doc : gmap string value,
                match run_start_doc !! "uid" with
                | Some uid => Ok uid
                | None => Err KeyError
                end) docs = Ok keys →
       ∃ items,
         rmapM (λ run_start_doc : gmap string value,
                  match run_start_doc !! "uid" with
                  | Some uid =>
                      rbind (_build_run self run_start_doc) (λ run, Ok (uid, run))
                  | None => Err KeyError
                  end) docs = Ok items
         ∧ items.*1 = keys).
Proof.
  induction docs as [|doc docs [IH1 IH2]]; cbn [rmapM].
  - split.
    + intros items [= <-]. by split.
    + intros keys [= <-]. by exists [].
  - split.
    + intros items. destruct (doc !! "uid") as [uid|] eqn:Huid; [|done].
      destruct (_build_run self doc) as [run|] eqn:Hrun; [|done]. cbn [rbind].
      destruct (rmapM _ docs) as [items'|] eqn:Hitems; [|done]. cbn [rbind].
      intros [= <-]. destruct (IH1 items' eq_refl) as [-> Hall].
      split; [done|]. constructor; [|done]. cbn.
      by rewrite (build_run_start _ _ _ Hrun).
    + intros keys. destruct (doc !! "uid") as [uid|] eqn:Huid; [|done].
      cbn [rbind].
      destruct (rmapM (λ run_start_doc : gmap string value,
                         match run_start_doc !! "uid" with
                         | Some uid => Ok uid
                         | None => Err KeyError
                         end) docs) as [keys'|] eqn:Hkeys; [|done].
      cbn [rbind]. intros [= <-].
      destruct (IH2 keys' eq_refl) as (items' & -> & <-).
      unfold _build_run at 1. rewrite Huid. cbn [rbind]. eauto.
Qed.

(** X8: a slice of the items and the same slice of the keys go together:
    when the items come out, the keys are their first components, and each
    item's run starts with the document that carries its key; when the keys
    come out, so do the items. *)
Theorem items_slice_keys (self : Catalog) (start stop : option nat) (fuel : nat) :
  (∀ items,
     _items_slice fuel self start stop = Some (Ok items) →
     _keys_slice fuel self start stop = Some (Ok items.*1)
     ∧ Forall (λ item, run_start item.2 !! "uid" = Some item.1) items)
  ∧ (∀ keys,
       _keys_slice fuel self start stop = Some (Ok keys) →
       ∃ items,
         _items_slice fuel self start stop = Some (Ok items) ∧ items.*1 = keys).
Proof.
  unfold _items_slice, _keys_slice.
  destruct (_chunked_find fuel _ _ _ _) as [docs|]; cbn [fmap option_fmap option_map].
  2: { split; intros ? [=]. }
  destruct (items_keys self docs) as [H1 H2]. split.
  - intros items [= Hitems]. destruct (H1 items Hitems) as [-> Hall]. done.
  - intros keys [= Hkeys]. destruct (H2 keys Hkeys) as (items & -> & <-). eauto.
Qed.

End Slices.

(** Keys A, B, C: the slices [1:3], [1:] and [:3]. *)
Lemma keys_slice_ABC :
  ∃ keys,
    @_keys_slice uninterpreted 4 (MkCatalog db_ABC db_ABC ∅ [] None None)
      None None = Some (Ok keys)
    ∧ @_keys_slice uninterpreted 4 (MkCatalog db_ABC db_ABC ∅ [] None None)
        (Some 1%nat) (Some 3%nat)
      = Some (Ok (take (3 - 1) (drop 1 keys)))
    ∧ @_keys_slice uninterpreted 4 (MkCatalog db_ABC db_ABC ∅ [] None None)
        (Some 1%nat) None
      = Some (Ok (drop 1 keys))
    ∧ @_keys_slice uninterpreted 4 (MkCatalog db_ABC db_ABC ∅ [] None None)
        None (Some 3%nat)
      = Some (Ok (take 3 keys)).
Proof.
  apply (@keys_slice_of_all_keys uninterpreted
           (MkCatalog db_ABC db_ABC ∅ [] None None) 1 3 4).
  - apply (bool_decide_unpack _). vm_compute. exact I.
  - repeat constructor; by eexists.
  - vm_compute. lia.
  - lia.
Defined.

(** The first two items of the store of runs A, B, C. *)
Lemma items_slice_AB :
  ∃ items,
    @_items_slice uninterpreted 4 (MkCatalog db_primary db_primary ∅ [] None None)
      None (Some 2%nat) = Some (Ok items)
    ∧ items.*1 = [VStr "A"; VStr "B"].
Proof.
  destruct (@items_slice_keys uninterpreted
              (MkCatalog db_primary db_primary ∅ [] None None)
              None (Some 2%nat) 4) as [_ Hitems].
  apply Hitems. vm_compute. reflexivity.
Defined.

Lemma length_filter_mono {A} (P Q : A → Prop) `{!∀ x, Decision (P x)}
    `{!∀ x, Decision (Q x)} (l : list A) :
  (∀ x, P x → Q x) → (length (filter P l) ≤ length (filter Q l))%nat.
Proof.
  intros Himp. induction l as [|x l IH]; [done|].
  rewrite !filter_cons. destruct (decide (P x)) as [HP|HP].
  - rewrite decide_True by auto. simpl. lia.
  - destruct (decide (Q x)); simpl; lia.
Qed.

Section ItemByIndex.
Context `{!StoreOperators}.

Lemma len_at_most_stored (self : Catalog) :
  0 ≤ __len__ self
  ≤ Z.of_nat (length (find (_run_start_collection self) (_mongo_query self []))).
Proof.
  unfold __len__, authenticated, count_documents.
  set (view := MkCatalog _ _ _ _ _ _).
  change (_run_start_collection view) with (_run_start_collection self).
  split; [lia|]. apply Nat2Z.inj_le. unfold find. apply length_filter_mono.
  intros d Hd. apply Is_true_true in Hd. apply Is_true_true.
  rewrite matches_mongo_query, app_nil_r in Hd |- *.
  destruct (effective_queries_extend self) as [extra Hextra].
  unfold _mongo_queries, view in Hd. cbn [_high_level_queries] in Hd.
  rewrite Hextra, fmap_app, forallb_app in Hd.
  by apply andb_true_iff in Hd as [Hd _].
Qed.

(** One round is all that [limit=1] takes. *)
Lemma chunked_find_first (coll : list document) (q : query) (skip : nat)
    (fuel : nat) :
  (0 < fuel)%nat →
  _chunked_find fuel coll q skip (Some 1)
  = Some (fields <$> take 1 (drop skip (sort_by_id (find coll q)))).
Proof.
  intros Hfuel. destruct fuel as [|fuel]; [lia|].
  unfold _chunked_find, cursor_skip.
  rewrite decide_True by (unfold CURSOR_LIMIT; lia).
  unfold cursor_limit. rewrite decide_False by lia.
  change (Z.abs_nat 1) with 1%nat.
  destruct (drop skip (sort_by_id (find coll q))) as [|x rest]; [done|].
  replace (take 1 (x :: rest)) with [x] by (by destruct rest).
  cbn [chunked_loop last length].
  by rewrite decide_True by lia.
Qed.

(** X9: with a uid on every run document, [_item_by_index] raises
    [IndexError] for an index at or past the length; for an index within
    the bounds it returns the key and the run of the document at that
    position of the matching documents sorted by [_id], and [next] never
    finds the generator empty.  A negative index is not taken from the end:
    it reaches the store's [.skip], which refuses it. *)
Theorem item_by_index_bounds (self : Catalog) (index : Z) (fuel : nat) :
  Forall (λ d, is_Some (fields d !! "uid")) (_run_start_collection self) →
  (0 < fuel)%nat →
  (__len__ self ≤ index → _item_by_index fuel self index = Some IndexError)
  ∧ (index < 0 → _item_by_index fuel self index = Some (Raised ValueError))
  ∧ (0 ≤ index < __len__ self →
     ∃ d key run,
       sort_by_id (find (_run_start_collection self) (_mongo_query self []))
         !! Z.to_nat index = Some d
       ∧ fields d !! "uid" = Some key
       ∧ _build_run self (fields d) = Ok run
       ∧ _item_by_index fuel self index = Some (Returned (key, run))).
Proof.
  intros Huid Hfuel. pose proof (len_at_most_stored self) as Hlen.
  unfold _item_by_index. split; [|split].
  - intros Hge. by rewrite decide_True.
  - intros Hneg. rewrite decide_False by lia. by rewrite decide_True.
  - intros [Hlo Hhi]. rewrite !decide_False by lia.
    rewrite chunked_find_first by done.
    set (sorted := sort_by_id _) in *.
    assert (Hin : (Z.to_nat index < length sorted)%nat).
    { unfold sorted. rewrite sort_by_id_length. lia. }
    apply lookup_lt_is_Some_2 in Hin as [d Hd].
    assert (Hd' : is_Some (fields d !! "uid")).
    { rewrite Forall_forall in Huid. apply Huid.
      apply list_elem_of_lookup_2 in Hd. unfold sorted in Hd.
      rewrite sort_by_id_Permutation in Hd.
      by apply list_elem_of_filter in Hd as [_ ?]. }
    destruct Hd' as [key Hkey].
    exists d, key. rewrite (drop_S _ _ _ Hd).
    cbn [take fmap list_fmap option_fmap option_map]. rewrite Hkey.
    unfold _build_run. rewrite Hkey. eauto.
Qed.

End ItemByIndex.

(** Runs A, B, C: index 1 is B, index 3 is out of range, index -1 is
    refused. *)
Lemma item_by_index_ABC :
  (∃ run,
     @_item_by_index uninterpreted 1 (MkCatalog db_ABC db_ABC ∅ [] None None) 1
     = Some (Returned (VStr "B", run)))
  ∧ @_item_by_index uninterpreted 1 (MkCatalog db_ABC db_ABC ∅ [] None None) 3
    = Some IndexError
  ∧ @_item_by_index uninterpreted 1 (MkCatalog db_ABC db_ABC ∅ [] None None) (-1)
    = Some (Raised ValueError).
Proof.
  assert (Huid : Forall (λ d, is_Some (fields d !! "uid"))
                   (_run_start_collection (MkCatalog db_ABC db_ABC ∅ [] None None)))
    by (repeat constructor; by eexists).
  split; [|split].
  - destruct (@item_by_index_bounds uninterpreted
                (MkCatalog db_ABC db_ABC ∅ [] None None) 1 1 Huid)
      as (_ & _ & Hin); [lia|].
    destruct Hin as (d & key & run & Hd & Hkey & _ & Hitem);
      [vm_compute; split; [discriminate|reflexivity]|].
    exists run. rewrite Hitem. vm_compute in Hd. injection Hd as <-.
    vm_compute in Hkey. injection Hkey as <-. reflexivity.
  - apply (@item_by_index_bounds uninterpreted
             (MkCatalog db_ABC db_ABC ∅ [] None None) 3 1 Huid); [lia|].
    vm_compute. discriminate.
  - apply (@item_by_index_bounds uninterpreted
             (MkCatalog db_ABC db_ABC ∅ [] None None) (-1) 1 Huid); lia.
Defined.

(** ** What a policy may do to the intents *)

(** X11: [modify_queries] never drops, reorders or rewrites an intent: its
    result is the input followed by at most one more intent, and by none
    under [DummyAccessPolicy].  So a policy can only narrow: a document that
    satisfies every predicate of the result satisfies every predicate of
    the input. *)
Theorem modify_queries_only_appends `{!StoreOperators} (policy : access_policy)
    (queries : list intent) (aid : option identity) :
  ∃ extra,
    modify_queries policy queries aid = queries ++ extra
    ∧ (length extra ≤ 1)%nat
    ∧ (policy = DummyAccessPolicy → extra = [])
    ∧ ∀ d,
        forallb (λ q, matches (query_registry q) d)
          (modify_queries policy queries aid) = true →
        forallb (λ q, matches (query_registry q) d) queries = true.
Proof.
  assert (Hextra : ∃ extra,
    modify_queries policy queries aid = queries ++ extra
    ∧ (length extra ≤ 1)%nat
    ∧ (policy = DummyAccessPolicy → extra = [])).
  { destruct policy as [|lists]; cbn [modify_queries].
    - exists []. rewrite app_nil_r. split; [done|]. split; [simpl; lia|done].
    - destruct (is_admin aid), (access_lists_get lists aid) as [|uids].
      + exists []. rewrite app_nil_r. split; [done|]. split; [simpl; lia|done].
      + exists []. rewrite app_nil_r. split; [done|]. split; [simpl; lia|done].
      + exists []. rewrite app_nil_r. split; [done|]. split; [simpl; lia|done].
      + exists [uid_in uids]. split; [done|]. split; [simpl; lia|done]. }
  destruct Hextra as (extra & Heq & Hlen & Hdummy).
  exists extra. split; [done|]. split; [done|]. split; [done|].
  intros d. rewrite Heq, forallb_app. by intros [? _]%andb_true_iff.
Qed.

(** ** The keys of a catalog *)

Lemma rmapM_uid_Forall2 (docs : list document) (keys : list value) :
  rmapM (λ run_start_doc : gmap string value,
           match run_start_doc !! "uid" with
           | Some uid => Ok uid
           | None => Err KeyError
           end) (fields <$> docs) = Ok keys →
  Forall2 (λ d key, fields d !! "uid" = Some key) docs keys.
Proof.
  revert keys. induction docs as [|d docs IH]; intros keys.
  - intros [= <-]. constructor.
  - rewrite fmap_cons. cbn [rmapM].
    destruct (fields d !! "uid") as [uid|] eqn:Hd; [|done]. cbn [rbind].
    destruct (rmapM _ (fields <$> docs)) as [keys'|] eqn:Hkeys; [|done].
    cbn [rbind]. intros [= <-]. constructor; [done|]. by apply IH.
Qed.

Section Keys.
Context `{!StoreOperators}.

(** X12: with a uid on every run document and no [_id] shared, the whole
    key sequence [_keys_slice(None, None)] is made of the uids of the run
    documents that satisfy the translated predicate of every stored intent,
    each once, in ascending [_id] order.  This holds also when an intent
    filters on [_id]: the predicates sit under ["$and"], out of reach of the
    ["_id"] entry that the pagination writes. *)
Theorem keys_are_matching_uids (self : Catalog) (fuel : nat) :
  NoDup (_id <$> _run_start_collection self) →
  Forall (λ d, is_Some (fields d !! "uid")) (_run_start_collection self) →
  (length (_run_start_collection self) < fuel)%nat →
  ∃ docs keys,
    docs ≡ₚ filter (λ d, Forall (λ q, matches (query_registry q) d)
                           (_high_level_queries self))
              (_run_start_collection self)
    ∧ ascending_ids docs
    ∧ _keys_slice fuel self None None = Some (Ok keys)
    ∧ Forall2 (λ d key, fields d !! "uid" = Some key) docs keys.
Proof.
  intros Hnd Huid Hfuel.
  set (coll := _run_start_collection self) in *.
  exists (sort_by_id (find coll (_mongo_query self []))).
  destruct (rmapM_uid (sort_by_id (find coll (_mongo_query self []))))
    as (keys & Hkeys & _).
  { rewrite Forall_forall in Huid |- *. intros d Hd. apply Huid.
    rewrite sort_by_id_Permutation in Hd.
    by apply list_elem_of_filter in Hd as [_ ?]. }
  exists keys. split; [|split; [|split]].
  - rewrite sort_by_id_Permutation. unfold find.
    erewrite list_filter_iff; [done|].
    intros d. rewrite matches_mongo_query, app_nil_r. unfold _mongo_queries.
    rewrite Forall_forall. split.
    + intros Hall q Hq. apply Is_true_true in Hall.
      rewrite forallb_forall in Hall.
      apply Is_true_true, Hall, list_elem_of_In, list_elem_of_fmap. eauto.
    + intros Hall. apply Is_true_true, forallb_forall.
      intros p (q & -> & Hq)%list_elem_of_In%list_elem_of_fmap.
      by apply Is_true_true, Hall.
  - apply StronglySorted_strict; [apply sort_by_id_sorted|].
    rewrite sort_by_id_Permutation. by apply find_NoDup.
  - unfold _keys_slice. cbn [default from_option id fmap option_fmap option_map].
    fold coll. rewrite chunked_find_sorted;
      [|done|apply mongo_query_no_id|done|done].
    cbn [owed fmap option_fmap option_map]. by rewrite drop_0, Hkeys.
  - by apply rmapM_uid_Forall2.
Qed.

End Keys.

(** Runs A, B, C with the intent [{"_id": 2}]: the only key is B. *)
Lemma keys_with_id_intent :
  @_keys_slice uninterpreted 4
    (MkCatalog db_ABC db_ABC ∅ [RawMongo [("_id", Literal (VInt 2))]] None None)
    None None
  = Some (Ok [VStr "B"]).
Proof.
  destruct (@keys_are_matching_uids uninterpreted
              (MkCatalog db_ABC db_ABC ∅ [RawMongo [("_id", Literal (VInt 2))]]
                 None None) 4)
    as (docs & keys & _ & _ & Hkeys & _).
  - apply (bool_decide_unpack _). vm_compute. exact I.
  - repeat constructor; by eexists.
  - vm_compute. lia.
  - rewrite Hkeys. vm_compute in Hkeys. by injection Hkeys as <-.
Defined.

(** Alice's list adds one intent to a search; the administrator's none. *)
Lemma modify_queries_alice_appends :
  ∃ extra,
    modify_queries (SimpleAccessPolicy alice_lists) [FullText "scan"]
      (Some (User "alice"))
    = [FullText "scan"] ++ extra
    ∧ (length extra ≤ 1)%nat.
Proof.
  destruct (@modify_queries_only_appends uninterpreted
              (SimpleAccessPolicy alice_lists) [FullText "scan"]
              (Some (User "alice"))) as (extra & Heq & Hlen & _).
  by exists extra.
Defined.
